(** * Waypoint updater: a shallow embedding of
    [ros/src/waypoint_updater/waypoint_updater.py] and its properties.

    - Python floats are IEEE 754 binary64 numbers: Rocq's primitive floats,
      with the specification of their operations ([SpecFloat]) for the
      proofs.  [math.sqrt] and [**] raise where CPython raises.
    - Python integers are [Z]; lists are lists, indexed as Python indexes
      them (negative indices count from the end).
    - Python exceptions are the error monad [result].
    - The attributes of the node are the record [WaypointUpdater], passed
      explicitly through the methods that assign them.  A cycle ([loop])
      runs on the snapshot that the record holds; the callbacks run between
      cycles.  Of the published [Lane] only the waypoints are kept (its
      header carries the time of publication).
    - The methods are first embedded on values; module [Store] embeds
      [get_final_waypoints] and the two shaping passes again with the
      messages as objects in a store, to state what the deep copies
      guarantee, and the two embeddings are proved to agree. *)

From Stdlib Require Import ZArith Floats.
From stdpp Require Import base tactics option list gmap.

Local Open Scope Z_scope.

(** ** Exceptions *)

Inductive exn : Type :=
  | IndexError
  | ZeroDivisionError
  | ValueError
  | OverflowError
  | AttributeError.

Inductive result (A : Type) : Type :=
  | Ok (a : A)
  | Raise (e : exn).
Arguments Ok {A} a.
Arguments Raise {A} e.

#[global] Instance result_ret : MRet result := @Ok.
#[global] Instance result_bind : MBind result := λ A B f m,
  match m with
  | Ok a => f a
  | Raise e => Raise e
  end.

(** ** Python primitives *)

(** [l[i]]: indices in [-len, len) are accepted, negative ones count from the
    end; anything else raises [IndexError]. *)
Definition py_index {A} (l : list A) (i : Z) : result A :=
  let n := Z.of_nat (length l) in
  let j := if i <? 0 then i + n else i in
  if (0 <=? j) && (j <? n) then
    match l !! Z.to_nat j with
    | Some a => Ok a
    | None => Raise IndexError
    end
  else Raise IndexError.

(** [a % b] on integers: floor modulo, [ZeroDivisionError] when [b] is 0. *)
Definition py_mod (a b : Z) : result Z :=
  if b =? 0 then Raise ZeroDivisionError else Ok (a mod b).

(** [range(a, b)] *)
Definition py_range (a b : Z) : list Z :=
  (λ k : nat, a + Z.of_nat k) <$> seq 0 (Z.to_nat (b - a)).

(** [max(a, b)] and [min(a, b)] on floats: the first argument is kept unless
    the second one compares strictly greater (resp. smaller). *)
Definition py_max (a b : float) : float :=
  if (a <? b)%float then b else a.

Definition py_min (a b : float) : float :=
  if (b <? a)%float then b else a.

(** [math.sqrt]: the correctly rounded square root, [ValueError] on a
    negative argument. *)
Definition math_sqrt (x : float) : result float :=
  if (x <? 0)%float then Raise ValueError else Ok (PrimFloat.sqrt x).

(** [x ** 2] on a float: [OverflowError] when a finite [x] has a square that
    is out of range; the value itself is taken to be the correctly rounded
    square. *)
Definition float_pow2 (x : float) : result float :=
  let r := (x * x)%float in
  if is_infinity r && is_finite x then Raise OverflowError else Ok r.

(** ** Messages *)

Record Header : Type := mkHeader
  { seq_id : Z; stamp : Z; frame_id : list Z }.

Record Point : Type := mkPoint
  { p_x : float; p_y : float; p_z : float }.

Record Quaternion : Type := mkQuaternion
  { q_x : float; q_y : float; q_z : float; q_w : float }.

Record Pose : Type := mkPose
  { position : Point; orientation : Quaternion }.

Record PoseStamped : Type := mkPoseStamped
  { ps_header : Header; ps_pose : Pose }.

Record Vector3 : Type := mkVector3
  { v_x : float; v_y : float; v_z : float }.

Record Twist : Type := mkTwist
  { linear : Vector3; angular : Vector3 }.

Record TwistStamped : Type := mkTwistStamped
  { ts_header : Header; ts_twist : Twist }.

Record Waypoint : Type := mkWaypoint
  { pose : PoseStamped; twist : TwistStamped }.

Record Lane : Type := mkLane
  { lane_header : Header; waypoints : list Waypoint }.

(** [wp.pose.pose.position] *)
Definition wp_position (wp : Waypoint) : Point :=
  position (ps_pose (pose wp)).

(** [wp.twist.twist.linear.x] *)
Definition wp_speed (wp : Waypoint) : float :=
  v_x (linear (ts_twist (twist wp))).

(** [wp.twist.twist.linear.x = v] *)
Definition set_linear_x (t : TwistStamped) (v : float) : TwistStamped :=
  {| ts_header := ts_header t;
     ts_twist :=
       {| linear :=
            {| v_x := v;
               v_y := v_y (linear (ts_twist t));
               v_z := v_z (linear (ts_twist t)) |};
          angular := angular (ts_twist t) |} |}.

Definition set_speed (wp : Waypoint) (v : float) : Waypoint :=
  {| pose := pose wp; twist := set_linear_x (twist wp) v |}.

(** ** The node *)

Definition LOOKAHEAD_WPS : Z := 100.
Definition MAX_DECEL : float := 4%float.
Definition STOP_BUFFER : float := 2.5%float.

(** The literal [0.0001] of [accelerate]: the binary64 number it denotes. *)
Definition standstill : float := 0x1.a36e2eb1c432dp-14%float.

(** [self.decel] and [self.accel] are assigned once, in [__init__]. *)
Definition decel : float := 1%float.
Definition accel : float := 1%float.

Arguments LOOKAHEAD_WPS : simpl never.
Arguments MAX_DECEL : simpl never.
Arguments STOP_BUFFER : simpl never.
Arguments standstill : simpl never.
Arguments decel : simpl never.
Arguments accel : simpl never.

(** The attributes of the node that are assigned after [__init__];
    [base_waypoints] and [current_pose] do not exist before their first
    message. *)
Record WaypointUpdater : Type := mkWaypointUpdater
  { base_waypoints : option Lane;
    current_pose : option PoseStamped;
    current_velocity : float;
    traffic_waypoint : Z;
    obstacle_waypoint : option Z;
    braking : bool;
    last_starting_point : option Point }.

Definition init : WaypointUpdater :=
  {| base_waypoints := None;
     current_pose := None;
     current_velocity := 0%float;
     traffic_waypoint := -1;
     obstacle_waypoint := None;
     braking := false;
     last_starting_point := None |}.

Definition set_braking (self : WaypointUpdater) (b : bool) : WaypointUpdater :=
  {| base_waypoints := base_waypoints self;
     current_pose := current_pose self;
     current_velocity := current_velocity self;
     traffic_waypoint := traffic_waypoint self;
     obstacle_waypoint := obstacle_waypoint self;
     braking := b;
     last_starting_point := last_starting_point self |}.

Definition set_last_starting_point (self : WaypointUpdater) (p : option Point)
  : WaypointUpdater :=
  {| base_waypoints := base_waypoints self;
     current_pose := current_pose self;
     current_velocity := current_velocity self;
     traffic_waypoint := traffic_waypoint self;
     obstacle_waypoint := obstacle_waypoint self;
     braking := braking self;
     last_starting_point := p |}.

(** *** Callbacks *)

Definition current_pose_cb (self : WaypointUpdater) (msg : PoseStamped)
  : WaypointUpdater :=
  {| base_waypoints := base_waypoints self;
     current_pose := Some msg;
     current_velocity := current_velocity self;
     traffic_waypoint := traffic_waypoint self;
     obstacle_waypoint := obstacle_waypoint self;
     braking := braking self;
     last_starting_point := last_starting_point self |}.

Definition base_waypoints_cb (self : WaypointUpdater) (msg : Lane)
  : WaypointUpdater :=
  {| base_waypoints := Some msg;
     current_pose := current_pose self;
     current_velocity := current_velocity self;
     traffic_waypoint := traffic_waypoint self;
     obstacle_waypoint := obstacle_waypoint self;
     braking := braking self;
     last_starting_point := last_starting_point self |}.

Definition traffic_waypoint_cb (self : WaypointUpdater) (data : Z)
  : WaypointUpdater :=
  {| base_waypoints := base_waypoints self;
     current_pose := current_pose self;
     current_velocity := current_velocity self;
     traffic_waypoint := data;
     obstacle_waypoint := obstacle_waypoint self;
     braking := braking self;
     last_starting_point := last_starting_point self |}.

Definition current_velocity_cb (self : WaypointUpdater) (msg : TwistStamped)
  : WaypointUpdater :=
  {| base_waypoints := base_waypoints self;
     current_pose := current_pose self;
     current_velocity := v_x (linear (ts_twist msg));
     traffic_waypoint := traffic_waypoint self;
     obstacle_waypoint := obstacle_waypoint self;
     braking := braking self;
     last_starting_point := last_starting_point self |}.

Definition obstacle_waypoint_cb (self : WaypointUpdater) (data : Z)
  : WaypointUpdater :=
  {| base_waypoints := base_waypoints self;
     current_pose := current_pose self;
     current_velocity := current_velocity self;
     traffic_waypoint := traffic_waypoint self;
     obstacle_waypoint := Some data;
     braking := braking self;
     last_starting_point := last_starting_point self |}.

(** *** Geometry *)

Definition distance (p1 p2 : Point) : result float :=
  let x := (p_x p1 - p_x p2)%float in
  let y := (p_y p1 - p_y p2)%float in
  let z := (p_z p1 - p_z p2)%float in
  math_sqrt (x * x + y * y + z * z)%float.

(** The body of the [for] loop of [get_closest_waypoint], from index [i] on,
    over the part [wps] of the route that is still to be scanned. *)
Fixpoint closest_scan (p : Point) (wps : list Waypoint) (i : Z)
    (closest_dist : float) (closest_wp : Z) : result Z :=
  match wps with
  | [] => Ok closest_wp
  | wp :: rest =>
      dist ← distance p (wp_position wp);
      if (dist <? closest_dist)%float
      then closest_scan p rest (i + 1) dist i
      else closest_scan p rest (i + 1) closest_dist closest_wp
  end.

Definition get_closest_waypoint (ps : PoseStamped) (wps : list Waypoint)
  : result Z :=
  closest_scan (position (ps_pose ps)) wps 0 infinity 0.

Definition get_next_waypoint (ps : PoseStamped) (wps : list Waypoint)
  : result Z :=
  closest_wp ← get_closest_waypoint ps wps;
  closest_wp_next ← py_mod (closest_wp + 1) (Z.of_nat (length wps));
  wp0 ← py_index wps closest_wp;
  wp1 ← py_index wps closest_wp_next;
  let wp0_x := p_x (wp_position wp0) in
  let wp0_y := p_y (wp_position wp0) in
  let wp1_x := p_x (wp_position wp1) in
  let wp1_y := p_y (wp_position wp1) in
  let x := p_x (position (ps_pose ps)) in
  let y := p_y (position (ps_pose ps)) in
  if (0 <=? (y - wp0_y) * (wp1_y - wp0_y) + (x - wp0_x) * (wp1_x - wp0_x))%float
  then Ok closest_wp_next
  else Ok closest_wp.

(** *** Velocity shaping *)

(** The [for] loop of [accelerate]; it stops at the first point whose speed
    does not exceed the ramp. *)
Fixpoint accelerate_loop (start : Point) (wps : list Waypoint)
  : result (list Waypoint) :=
  match wps with
  | [] => Ok []
  | wp :: rest =>
      dist ← distance start (wp_position wp);
      vel ← math_sqrt (2 * accel * dist)%float;
      if (vel <? wp_speed wp)%float
      then rest' ← accelerate_loop start rest; Ok (set_speed wp vel :: rest')
      else Ok (wp :: rest)
  end.

Definition accelerate (self : WaypointUpdater) (wps : list Waypoint)
  : result (list Waypoint * WaypointUpdater) :=
  self ←
    (if (current_velocity self <=? standstill)%float
     then
       match current_pose self with
       | Some ps => Ok (set_last_starting_point self (Some (position (ps_pose ps))))
       | None => Raise AttributeError
       end
     else Ok self);
  match last_starting_point self with
  | None => Ok (wps, self)
  | Some start => wps' ← accelerate_loop start wps; Ok (wps', self)
  end.

(** The body of the [for] loop of [decelerate], on one point; [last_pos] is
    the position of the last point of the window. *)
Definition decelerate_body (last_pos : Point) (wp : Waypoint) : result Waypoint :=
  dist ← distance (wp_position wp) last_pos;
  let dist := py_max 0 (dist - STOP_BUFFER)%float in
  vel ← math_sqrt (2 * decel * dist)%float;
  Ok (set_speed wp (py_min vel (wp_speed wp))).

Fixpoint decelerate_loop (last_pos : Point) (wps : list Waypoint)
  : result (list Waypoint) :=
  match wps with
  | [] => Ok []
  | wp :: rest =>
      wp' ← decelerate_body last_pos wp;
      rest' ← decelerate_loop last_pos rest;
      Ok (wp' :: rest')
  end.

(** [last] is the object stored at the end of the list, so that its speed is
    already 0 when the loop reaches it. *)
Definition decelerate (wps : list Waypoint) : result (list Waypoint) :=
  let n := Z.of_nat (length wps) in
  last ← py_index wps (n - 1);
  let wps := <[Z.to_nat (n - 1) := set_speed last 0%float]> wps in
  decelerate_loop (wp_position last) wps.

(** *** Window extraction *)

(** The [for] loop of [get_final_waypoints] over the indices [idx]. *)
Fixpoint copy_waypoints (wps : list Waypoint) (idx : list Z)
  : result (list Waypoint) :=
  match idx with
  | [] => Ok []
  | i :: idx =>
      index ← py_mod i (Z.of_nat (length wps));
      src ← py_index wps index;
      let wp := {| pose := pose src; twist := twist src |} in
      rest ← copy_waypoints wps idx;
      Ok (wp :: rest)
  end.

(** The points of the window before shaping. *)
Definition extract (wps : list Waypoint) (start_wp end_wp : Z)
  : result (list Waypoint) :=
  let end_wp :=
    if end_wp <? start_wp then end_wp + Z.of_nat (length wps) else end_wp in
  copy_waypoints wps (py_range start_wp (end_wp + 1)).

Definition get_final_waypoints (self : WaypointUpdater)
    (wps : list Waypoint) (start_wp end_wp : Z)
  : result (list Waypoint * WaypointUpdater) :=
  final_waypoints ← extract wps start_wp end_wp;
  if braking self
  then final_waypoints ← decelerate final_waypoints; Ok (final_waypoints, self)
  else accelerate self final_waypoints.

(** *** One cycle *)

(** [loop] returns the list of waypoints of the lane it publishes ([None]
    when it publishes nothing) and the node after the cycle. *)
Definition loop (self : WaypointUpdater)
  : result (option (list Waypoint) * WaypointUpdater) :=
  match base_waypoints self, current_pose self with
  | Some lane, Some ps =>
      let wpts := waypoints lane in
      next_wp ← get_next_waypoint ps wpts;
      let traffic_wp := traffic_waypoint self in
      tl_wp ← py_index wpts traffic_wp;
      tl_dist ← distance (position (ps_pose ps)) (wp_position tl_wp);
      v2 ← float_pow2 (current_velocity self);
      let min_stopping_dist := (v2 / (2 * MAX_DECEL) + STOP_BUFFER)%float in
      if traffic_wp =? -1 then
        let self := set_braking self false in
        '(final, self) ← get_final_waypoints self wpts next_wp (next_wp + LOOKAHEAD_WPS);
        Ok (Some final, self)
      else if negb (braking self) && (tl_dist <? min_stopping_dist)%float then
        '(final, self) ← get_final_waypoints self wpts next_wp (next_wp + LOOKAHEAD_WPS);
        Ok (Some final, self)
      else
        let self := set_braking self true in
        '(final, self) ← get_final_waypoints self wpts next_wp traffic_wp;
        Ok (Some final, self)
  | _, _ => Ok (None, self)
  end.

(** ** A route for the examples: five colinear points, ten units apart *)

Definition hdr0 : Header := {| seq_id := 0; stamp := 0; frame_id := [] |}.

Definition mk_pose (x y : float) : PoseStamped :=
  {| ps_header := hdr0;
     ps_pose :=
       {| position := {| p_x := x; p_y := y; p_z := 0%float |};
          orientation :=
            {| q_x := 0%float; q_y := 0%float; q_z := 0%float; q_w := 1%float |} |} |}.

Definition mk_twist (v : float) : TwistStamped :=
  {| ts_header := hdr0;
     ts_twist :=
       {| linear := {| v_x := v; v_y := 0%float; v_z := 0%float |};
          angular := {| v_x := 0%float; v_y := 0%float; v_z := 0%float |} |} |}.

Definition mk_wp (x y v : float) : Waypoint :=
  {| pose := mk_pose x y; twist := mk_twist v |}.

Definition route5 : list Waypoint :=
  [ mk_wp 0 0 11; mk_wp 10 0 11; mk_wp 20 0 11; mk_wp 30 0 11; mk_wp 40 0 11 ]%float.

Definition node5 (x : float) (v : float) (tw : Z) (br : bool) : WaypointUpdater :=
  {| base_waypoints := Some {| lane_header := hdr0; waypoints := route5 |};
     current_pose := Some (mk_pose x 0);
     current_velocity := v;
     traffic_waypoint := tw;
     obstacle_waypoint := None;
     braking := br;
     last_starting_point := None |}.


(** What a cycle did, in short: the number of points it published with the
    target speed of the last one, and the mode after the cycle. *)
Definition summary (r : result (option (list Waypoint) * WaypointUpdater))
  : result (option (nat * option float) * bool) :=
  match r with
  | Ok (Some final, self) =>
      Ok (Some (length final, wp_speed <$> last final), braking self)
  | Ok (None, self) => Ok (None, braking self)
  | Raise e => Raise e
  end.

(** ** The store: messages as objects

    The methods above work on values.  In the program a waypoint is an
    object whose attributes [pose] and [twist] refer to two message objects,
    and the shaping passes assign the speed inside the [twist] object.  The
    module below keeps the references: a store maps locations to objects,
    [Waypoint()] and [copy.deepcopy] allocate, attribute assignments update
    the store in place. *)

Module Store.

Definition loc : Type := positive.

Inductive obj : Type :=
  | OWaypoint (pose_ref twist_ref : loc)
  | OPoseStamped (v : PoseStamped)
  | OTwistStamped (v : TwistStamped).

Definition alloc (σ : gmap loc obj) (o : obj) : loc * gmap loc obj :=
  let l := fresh (dom σ) in (l, <[l := o]> σ).

(** [PoseStamped()] and [TwistStamped()]: all fields at their defaults. *)
Definition default_pose : PoseStamped :=
  {| ps_header := {| seq_id := 0; stamp := 0; frame_id := [] |};
     ps_pose :=
       {| position := {| p_x := 0%float; p_y := 0%float; p_z := 0%float |};
          orientation :=
            {| q_x := 0%float; q_y := 0%float; q_z := 0%float; q_w := 0%float |} |} |}.

Definition default_twist : TwistStamped :=
  {| ts_header := {| seq_id := 0; stamp := 0; frame_id := [] |};
     ts_twist :=
       {| linear := {| v_x := 0%float; v_y := 0%float; v_z := 0%float |};
          angular := {| v_x := 0%float; v_y := 0%float; v_z := 0%float |} |} |}.

(** [Waypoint()] *)
Definition new_waypoint (σ : gmap loc obj) : loc * gmap loc obj :=
  let '(p, σ) := alloc σ (OPoseStamped default_pose) in
  let '(t, σ) := alloc σ (OTwistStamped default_twist) in
  alloc σ (OWaypoint p t).

(** [wp.pose] and [wp.twist] *)
Definition get_pose (σ : gmap loc obj) (wp : loc) : result loc :=
  match σ !! wp with
  | Some (OWaypoint p _) => Ok p
  | _ => Raise AttributeError
  end.

Definition get_twist (σ : gmap loc obj) (wp : loc) : result loc :=
  match σ !! wp with
  | Some (OWaypoint _ t) => Ok t
  | _ => Raise AttributeError
  end.

(** [wp.pose = p] and [wp.twist = t] *)
Definition set_pose (σ : gmap loc obj) (wp p : loc) : result (gmap loc obj) :=
  match σ !! wp with
  | Some (OWaypoint _ t) => Ok (<[wp := OWaypoint p t]> σ)
  | _ => Raise AttributeError
  end.

Definition set_twist (σ : gmap loc obj) (wp t : loc) : result (gmap loc obj) :=
  match σ !! wp with
  | Some (OWaypoint p _) => Ok (<[wp := OWaypoint p t]> σ)
  | _ => Raise AttributeError
  end.

Definition read_pose (σ : gmap loc obj) (l : loc) : result PoseStamped :=
  match σ !! l with
  | Some (OPoseStamped v) => Ok v
  | _ => Raise AttributeError
  end.

Definition read_twist (σ : gmap loc obj) (l : loc) : result TwistStamped :=
  match σ !! l with
  | Some (OTwistStamped v) => Ok v
  | _ => Raise AttributeError
  end.

(** [copy.deepcopy] of a stamped message: a new object with the same
    contents. *)
Definition deepcopy (σ : gmap loc obj) (l : loc) : result (loc * gmap loc obj) :=
  match σ !! l with
  | Some (OPoseStamped v) => Ok (alloc σ (OPoseStamped v))
  | Some (OTwistStamped v) => Ok (alloc σ (OTwistStamped v))
  | _ => Raise AttributeError
  end.

(** [wp.pose.pose.position] *)
Definition position_of (σ : gmap loc obj) (wp : loc) : result Point :=
  p ← get_pose σ wp;
  v ← read_pose σ p;
  Ok (position (ps_pose v)).

(** [wp.twist.twist.linear.x] *)
Definition speed_of (σ : gmap loc obj) (wp : loc) : result float :=
  t ← get_twist σ wp;
  v ← read_twist σ t;
  Ok (v_x (linear (ts_twist v))).

(** [wp.twist.twist.linear.x = x] *)
Definition write_speed (σ : gmap loc obj) (wp : loc) (x : float)
  : result (gmap loc obj) :=
  t ← get_twist σ wp;
  v ← read_twist σ t;
  Ok (<[t := OTwistStamped (set_linear_x v x)]> σ).

(** The waypoint a reference stands for. *)
Definition read_waypoint (σ : gmap loc obj) (wp : loc) : result Waypoint :=
  p ← get_pose σ wp;
  pv ← read_pose σ p;
  t ← get_twist σ wp;
  tv ← read_twist σ t;
  Ok {| pose := pv; twist := tv |}.

Fixpoint read_waypoints (σ : gmap loc obj) (wps : list loc)
  : result (list Waypoint) :=
  match wps with
  | [] => Ok []
  | wp :: rest =>
      v ← read_waypoint σ wp;
      vs ← read_waypoints σ rest;
      Ok (v :: vs)
  end.

Fixpoint accelerate_loop (σ : gmap loc obj) (start : Point) (wps : list loc)
  : result (gmap loc obj) :=
  match wps with
  | [] => Ok σ
  | wp :: rest =>
      pos ← position_of σ wp;
      dist ← distance start pos;
      vel ← math_sqrt (2 * accel * dist)%float;
      x ← speed_of σ wp;
      if (vel <? x)%float
      then σ ← write_speed σ wp vel; accelerate_loop σ start rest
      else Ok σ
  end.

Definition accelerate (self : WaypointUpdater) (σ : gmap loc obj) (wps : list loc)
  : result (WaypointUpdater * gmap loc obj) :=
  self ←
    (if (current_velocity self <=? standstill)%float
     then
       match current_pose self with
       | Some ps => Ok (set_last_starting_point self (Some (position (ps_pose ps))))
       | None => Raise AttributeError
       end
     else Ok self);
  match last_starting_point self with
  | None => Ok (self, σ)
  | Some start => σ ← accelerate_loop σ start wps; Ok (self, σ)
  end.

Definition decelerate_body (σ : gmap loc obj) (last wp : loc)
  : result (gmap loc obj) :=
  pos ← position_of σ wp;
  last_pos ← position_of σ last;
  dist ← distance pos last_pos;
  let dist := py_max 0 (dist - STOP_BUFFER)%float in
  vel ← math_sqrt (2 * decel * dist)%float;
  x ← speed_of σ wp;
  write_speed σ wp (py_min vel x).

Fixpoint decelerate_loop (σ : gmap loc obj) (last : loc) (wps : list loc)
  : result (gmap loc obj) :=
  match wps with
  | [] => Ok σ
  | wp :: rest =>
      σ ← decelerate_body σ last wp;
      decelerate_loop σ last rest
  end.

Definition decelerate (σ : gmap loc obj) (wps : list loc)
  : result (gmap loc obj) :=
  last ← py_index wps (Z.of_nat (length wps) - 1);
  σ ← write_speed σ last 0%float;
  decelerate_loop σ last wps.

Fixpoint copy_waypoints (σ : gmap loc obj) (wps : list loc) (idx : list Z)
  : result (list loc * gmap loc obj) :=
  match idx with
  | [] => Ok ([], σ)
  | i :: idx =>
      let '(wp, σ) := new_waypoint σ in
      index ← py_mod i (Z.of_nat (length wps));
      src ← py_index wps index;
      src_pose ← get_pose σ src;
      '(p, σ) ← deepcopy σ src_pose;
      σ ← set_pose σ wp p;
      src ← py_index wps index;
      src_twist ← get_twist σ src;
      '(t, σ) ← deepcopy σ src_twist;
      σ ← set_twist σ wp t;
      '(rest, σ) ← copy_waypoints σ wps idx;
      Ok (wp :: rest, σ)
  end.

Definition get_final_waypoints (self : WaypointUpdater) (σ : gmap loc obj)
    (wps : list loc) (start_wp end_wp : Z)
  : result (list loc * WaypointUpdater * gmap loc obj) :=
  let end_wp :=
    if end_wp <? start_wp then end_wp + Z.of_nat (length wps) else end_wp in
  '(final, σ) ← copy_waypoints σ wps (py_range start_wp (end_wp + 1));
  if braking self
  then σ ← decelerate σ final; Ok (final, self, σ)
  else '(self, σ) ← accelerate self σ final; Ok (final, self, σ).

(** A store that holds the waypoints [vs], as objects, and nothing else;
    with their references. *)
Definition store_of (vs : list Waypoint) : list loc * gmap loc obj :=
  foldr (λ v '(ls, σ),
           let '(p, σ) := alloc σ (OPoseStamped (pose v)) in
           let '(t, σ) := alloc σ (OTwistStamped (twist v)) in
           let '(l, σ) := alloc σ (OWaypoint p t) in
           (l :: ls, σ))
        ([], ∅) vs.

(** The twist message of the waypoint object [wp] is not an object of
    [σ0]. *)
Definition twist_outside (σ0 σ : gmap loc obj) (wp : loc) : Prop :=
  ∀ p t, σ !! wp = Some (OWaypoint p t) → σ0 !! t = None.

(** [wp] is a waypoint object of [σ] made of objects that [σ0] does not
    have: the object itself and its two messages. *)
Definition copied (σ0 σ : gmap loc obj) (wp : loc) : Prop :=
  ∃ p t, σ !! wp = Some (OWaypoint p t)
         ∧ σ0 !! wp = None ∧ σ0 !! p = None ∧ σ0 !! t = None.

(** The two stores have the same waypoint objects, with the same
    attributes. *)
Definition same_waypoints (σ σ' : gmap loc obj) : Prop :=
  ∀ wp p t, σ !! wp = Some (OWaypoint p t) ↔ σ' !! wp = Some (OWaypoint p t).

(** The pair [w] of a waypoint object and its twist message stands for
    the waypoint [v]. *)
Definition repr (σ : gmap loc obj) (w : loc * loc) (v : Waypoint) : Prop :=
  ∃ p, σ !! w.1 = Some (OWaypoint p w.2)
       ∧ σ !! p = Some (OPoseStamped (pose v))
       ∧ σ !! w.2 = Some (OTwistStamped (twist v)).

(** [σ'] is [σ] up to the contents of the twist messages at [T]. *)
Definition twists_written (T : list loc) (σ σ' : gmap loc obj) : Prop :=
  ∀ l, σ' !! l = σ !! l
       ∨ (l ∈ T ∧ ∃ v v', σ !! l = Some (OTwistStamped v)
                           ∧ σ' !! l = Some (OTwistStamped v')).

End Store.

(** ** Runs of the node: messages and cycles in any order *)

Inductive event : Type :=
  | PoseMsg (msg : PoseStamped)
  | RouteMsg (msg : Lane)
  | TrafficMsg (data : Z)
  | ObstacleMsg (data : Z)
  | VelocityMsg (msg : TwistStamped)
  | Cycle.

Definition step (self : WaypointUpdater) (e : event) : result WaypointUpdater :=
  match e with
  | PoseMsg msg => Ok (current_pose_cb self msg)
  | RouteMsg msg => Ok (base_waypoints_cb self msg)
  | TrafficMsg data => Ok (traffic_waypoint_cb self data)
  | ObstacleMsg data => Ok (obstacle_waypoint_cb self data)
  | VelocityMsg msg => Ok (current_velocity_cb self msg)
  | Cycle => '(_, self) ← loop self; Ok self
  end.

Fixpoint run (self : WaypointUpdater) (es : list event) : result WaypointUpdater :=
  match es with
  | [] => Ok self
  | e :: es => self ← step self e; run self es
  end.

(** A message that fits a route of [n] points: a route has [n] points, a
    stop signal is -1 or an index of the route, and the square of a speed
    is in range. *)
Definition valid_event (n : Z) (e : event) : Prop :=
  match e with
  | RouteMsg msg => Z.of_nat (length (waypoints msg)) = n
  | TrafficMsg data => data = -1 ∨ 0 ≤ data < n
  | VelocityMsg msg => ∃ v2, float_pow2 (v_x (linear (ts_twist msg))) = Ok v2
  | PoseMsg _ | ObstacleMsg _ | Cycle => True
  end.

(** What the messages of [valid_event] leave in the node. *)
Definition node_ok (n : Z) (self : WaypointUpdater) : Prop :=
  (∀ lane, base_waypoints self = Some lane →
           Z.of_nat (length (waypoints lane)) = n)
  ∧ (traffic_waypoint self = -1 ∨ 0 ≤ traffic_waypoint self < n)
  ∧ ∃ v2, float_pow2 (current_velocity self) = Ok v2.

(** The left-hand side of the test of [get_next_waypoint]: the dot product
    of (pose - wp0) and (wp1 - wp0), in the order the source evaluates it. *)
Definition projection (ps : PoseStamped) (wp0 wp1 : Waypoint) : float :=
  let wp0_x := p_x (wp_position wp0) in
  let wp0_y := p_y (wp_position wp0) in
  let wp1_x := p_x (wp_position wp1) in
  let wp1_y := p_y (wp_position wp1) in
  let x := p_x (position (ps_pose ps)) in
  let y := p_y (position (ps_pose ps)) in
  ((y - wp0_y) * (wp1_y - wp0_y) + (x - wp0_x) * (wp1_x - wp0_x))%float.

(** ** Relations between a point and its shaped copy *)

(** [wp'] is [wp] up to the target speed. *)
Definition reshaped (wp wp' : Waypoint) : Prop :=
  wp' = set_speed wp (wp_speed wp').

(** [wp'] is [wp] with a target speed in [0, speed of wp], provided the
    speed of [wp] is not negative. *)
Definition slowed (wp wp' : Waypoint) : Prop :=
  reshaped wp wp' ∧
  ((0 <=? wp_speed wp)%float = true →
   (0 <=? wp_speed wp')%float = true ∧ (wp_speed wp' <=? wp_speed wp)%float = true).

(** ** Classes of binary64 numbers, on their specification *)

(** Not a number, a zero, or a number with a positive sign. *)
Definition sf_nonneg (f : spec_float) : bool :=
  match f with
  | S754_nan | S754_zero _ => true
  | S754_infinity s | S754_finite s _ _ => negb s
  end.

Definition sf_nonpos (f : spec_float) : bool :=
  match f with
  | S754_nan | S754_zero _ => true
  | S754_infinity s | S754_finite s _ _ => s
  end.

Definition sf_pos (f : spec_float) : bool :=
  match f with
  | S754_infinity s | S754_finite s _ _ => negb s
  | _ => false
  end.

Definition sf_zero_or_nan (f : spec_float) : bool :=
  match f with
  | S754_nan | S754_zero _ => true
  | _ => false
  end.

Definition sf_is_nan (f : spec_float) : bool :=
  match f with S754_nan => true | _ => false end.

(** A zero or a finite number. *)
Definition sf_finite (f : spec_float) : bool :=
  match f with
  | S754_zero _ | S754_finite _ _ _ => true
  | _ => false
  end.

(** The possible results of rounding a number of sign [s]. *)
Variant rounded (s : bool) : spec_float → Prop :=
  | rounded_zero : rounded s (S754_zero s)
  | rounded_finite m e : rounded s (S754_finite s m e)
  | rounded_infinity : rounded s (S754_infinity s).

(** * Properties *)

(** ** Binary64 arithmetic *)

(** Rounding keeps the sign *)
Lemma shr_1_nonneg mrs : 0 <= shr_m mrs -> 0 <= shr_m (shr_1 mrs).
Proof.
  destruct mrs as [m r s]; simpl.
  destruct m as [|[p|p|]|[p|p|]]; simpl; lia.
Qed.

Lemma iter_pos_inv {A} (P : A -> Prop) (f : A -> A) :
  (forall x, P x -> P (f x)) -> forall n x, P x -> P (SpecFloat.iter_pos f n x).
Proof.
  intros Hf. induction n; simpl; auto.
Qed.

Lemma shr_nonneg mrs e n : 0 <= shr_m mrs -> 0 <= shr_m (fst (shr mrs e n)).
Proof.
  intros H. destruct n; simpl; auto.
  apply iter_pos_inv; auto using shr_1_nonneg.
Qed.

Lemma shr_fexp_nonneg m e l :
  0 <= m -> 0 <= shr_m (fst (shr_fexp prec emax m e l)).
Proof.
  intros H. unfold shr_fexp. apply shr_nonneg.
  destruct l as [|[]]; simpl; auto.
Qed.

Lemma round_nearest_even_nonneg m l : 0 <= m -> 0 <= round_nearest_even m l.
Proof.
  intros H. destruct l as [|[]]; simpl; auto; try lia.
  destruct (Z.even m); lia.
Qed.

Lemma binary_round_aux_rounded s m e l :
  0 <= m -> rounded s (binary_round_aux prec emax s m e l).
Proof.
  intros H. unfold binary_round_aux.
  pose proof (shr_fexp_nonneg m e l H) as H1.
  destruct (shr_fexp prec emax m e l) as [mrs' e']. simpl in H1.
  pose proof (shr_fexp_nonneg _ e' loc_Exact
                (round_nearest_even_nonneg _ (loc_of_shr_record mrs') H1)) as H2.
  destruct (shr_fexp prec emax _ e' loc_Exact) as [mrs'' e'']. simpl in H2.
  destruct (shr_m mrs''); try lia.
  - constructor.
  - destruct (e'' <=? emax - prec); constructor.
Qed.

Lemma binary_round_rounded s m e : rounded s (binary_round prec emax s m e).
Proof.
  unfold binary_round.
  destruct (shl_align m e _) as [mz ez].
  apply binary_round_aux_rounded. lia.
Qed.


Lemma rounded_nonneg r : rounded false r -> sf_nonneg r = true.
Proof. now destruct 1. Qed.

Lemma rounded_nonpos r : rounded true r -> sf_nonpos r = true.
Proof. now destruct 1. Qed.

Lemma rounded_not_nan s r : rounded s r -> sf_is_nan r = false.
Proof. now destruct 1. Qed.

(** Sign of the operations *)
Lemma SFmul_self_nonneg x : sf_nonneg (SFmul prec emax x x) = true.
Proof.
  destruct x as [s|s| |s m e]; simpl; try reflexivity; try now destruct s.
  apply rounded_nonneg. rewrite xorb_nilpotent.
  apply binary_round_aux_rounded. lia.
Qed.

Lemma SFadd_nonneg x y :
  sf_nonneg x = true -> sf_nonneg y = true ->
  sf_nonneg (SFadd prec emax x y) = true.
Proof.
  destruct x as [sx|sx| |sx mx ex], y as [sy|sy| |sy my ey];
    simpl; intros Hx Hy; try (destruct sx; try discriminate);
    try (destruct sy; try discriminate); try reflexivity.
  apply rounded_nonneg, binary_round_rounded.
Qed.

Lemma sqrt_core_nonneg m e :
  0 <= fst (fst (SFsqrt_core_binary prec emax m e)).
Proof.
  unfold SFsqrt_core_binary.
  match goal with |- context [Z.sqrtrem ?a] =>
    pose proof (Z.sqrtrem_sqrt a) as H; pose proof (Z.sqrt_nonneg a) as H';
    destruct (Z.sqrtrem a) as [q r] end.
  simpl in *. lia.
Qed.

Lemma SFsqrt_nonneg x : sf_nonneg (SFsqrt prec emax x) = true.
Proof.
  destruct x as [s|[]| |[] m e]; simpl; try reflexivity.
  pose proof (sqrt_core_nonneg (Z.pos m) e) as H.
  destruct (SFsqrt_core_binary prec emax (Z.pos m) e) as [[mz ez] lz].
  apply rounded_nonneg, binary_round_aux_rounded. exact H.
Qed.


(** Comparisons *)
Lemma SFcompare_antisym a b c :
  SFcompare a b = Some c -> SFcompare b a = Some (CompOpp c).
Proof.
  destruct a as [sa|sa| |sa ma ea], b as [sb|sb| |sb mb eb]; simpl;
    try discriminate; try (destruct sa); try (destruct sb);
    intros [= <-]; try reflexivity.
  all: rewrite (Z.compare_antisym ea eb).
  all: destruct (ea ?= eb); simpl; try reflexivity.
  all: now rewrite ?CompOpp_involutive, Pos.compare_cont_antisym.
Qed.

Lemma SFcompare_not_nan a b :
  sf_is_nan a = false -> sf_is_nan b = false -> exists c, SFcompare a b = Some c.
Proof.
  destruct a, b; simpl; try discriminate; eauto.
Qed.

Lemma SFcompare_refl a : sf_is_nan a = false -> SFcompare a a = Some Eq.
Proof.
  destruct a as [s|s| |s m e]; simpl; try discriminate; destruct s; try reflexivity;
    now rewrite Z.compare_refl, Pos.compare_cont_refl.
Qed.

Lemma SFltb_irrefl a : SFltb a a = false.
Proof.
  unfold SFltb. destruct (sf_is_nan a) eqn:E.
  - now destruct a.
  - now rewrite SFcompare_refl.
Qed.

Lemma SFleb_refl a : sf_is_nan a = false -> SFleb a a = true.
Proof. intros H. unfold SFleb. now rewrite SFcompare_refl. Qed.

Lemma SFleb_total a b :
  sf_is_nan a = false -> sf_is_nan b = false ->
  SFltb b a = false -> SFleb a b = true.
Proof.
  intros Ha Hb. destruct (SFcompare_not_nan b a Hb Ha) as [c Hc].
  unfold SFltb, SFleb. rewrite Hc, (SFcompare_antisym _ _ _ Hc).
  now destruct c.
Qed.

Lemma SFltb_leb a b : SFltb a b = true -> SFleb a b = true.
Proof. unfold SFltb, SFleb. now destruct (SFcompare a b) as [[]|]. Qed.

Lemma SFleb_ltb_trans a b c :
  SFleb a b = true -> SFltb b c = true -> SFltb a c = true.
Proof.
  unfold SFleb, SFltb.
  destruct a as [sa|sa| |sa ma ea], b as [sb|sb| |sb mb eb], c as [sc|sc| |sc mc ec];
    cbn [SFcompare]; try discriminate; try reflexivity;
    try (destruct sa); try (destruct sb); try (destruct sc);
    try discriminate; try reflexivity.
  all: change (Pos.compare_cont Eq ?x ?y) with (x ?= y)%positive.
  all: destruct (Z.compare_spec ea eb), (Z.compare_spec eb ec), (Z.compare_spec ea ec);
    try discriminate; try reflexivity; try lia; subst.
  all: destruct (Pos.compare_spec ma mb), (Pos.compare_spec mb mc),
         (Pos.compare_spec ma mc); try discriminate; try reflexivity; try lia.
Qed.

Lemma SFltb_leb_false a b : SFltb a b = true -> SFleb b a = false.
Proof.
  unfold SFltb, SFleb. destruct (SFcompare a b) as [c|] eqn:E; [|discriminate].
  rewrite (SFcompare_antisym _ _ _ E). now destruct c.
Qed.

Lemma SFleb_ltb_false a b : SFltb a b = true -> SFltb b a = false.
Proof.
  unfold SFltb. destruct (SFcompare a b) as [c|] eqn:E; [|discriminate].
  rewrite (SFcompare_antisym _ _ _ E). now destruct c.
Qed.

Lemma sf_nonneg_not_lt_infinity a :
  sf_nonneg a = true -> SFltb a (S754_infinity false) = false ->
  a = S754_nan \/ a = S754_infinity false.
Proof. destruct a as [?|[]| |[] ? ?]; simpl; try discriminate; auto. Qed.

Lemma SFltb_not_nan_l a b : SFltb a b = true -> sf_is_nan a = false.
Proof. now destruct a, b. Qed.

(** Comparisons with zero *)
Lemma SFltb_zero_r a s : sf_nonneg a = true -> SFltb a (S754_zero s) = false.
Proof. now destruct a as [?|[]| |[] ? ?]. Qed.

Lemma SFltb_zero_l a s : SFltb (S754_zero s) a = sf_pos a.
Proof. now destruct a as [?|[]| |[] ? ?]. Qed.

Lemma SFleb_zero_l a s :
  SFleb (S754_zero s) a = sf_nonneg a && negb (sf_is_nan a).
Proof. now destruct a as [?|[]| |[] ? ?]. Qed.

Lemma sf_pos_nonpos a : sf_nonpos a = true -> sf_pos a = false.
Proof. now destruct a as [?|[]| |[] ? ?]. Qed.

(** Doubling and square root of a positive number *)
Lemma SFmul_pos m e y :
  sf_pos y = true ->
  rounded false (SFmul prec emax (S754_finite false m e) y).
Proof.
  destruct y as [?|[]| |[] my ey]; simpl; try discriminate; intros _.
  - constructor.
  - apply binary_round_aux_rounded. lia.
Qed.

Lemma SFmul_nonneg m e y :
  sf_nonneg y = true ->
  sf_nonneg (SFmul prec emax (S754_finite false m e) y) = true.
Proof.
  destruct y as [[]|[]| |[] my ey]; simpl; try discriminate; try reflexivity; intros _.
  apply rounded_nonneg, binary_round_aux_rounded. lia.
Qed.

Lemma SFsqrt_rounded x : rounded false x -> rounded false (SFsqrt prec emax x).
Proof.
  destruct 1 as [|m e|]; simpl; try constructor.
  pose proof (sqrt_core_nonneg (Z.pos m) e) as H.
  destruct (SFsqrt_core_binary prec emax (Z.pos m) e) as [[mz ez] lz].
  apply binary_round_aux_rounded. exact H.
Qed.

(** Differences, squares and sums that are zero or not a number *)
Lemma SFsub_diag x : sf_zero_or_nan (SFsub prec emax x x) = true.
Proof.
  destruct x as [[]|[]| |s m e]; simpl; try reflexivity.
  now rewrite Z.sub_diag.
Qed.

Lemma SFmul_zero_or_nan x y :
  sf_zero_or_nan x = true -> sf_zero_or_nan y = true ->
  sf_zero_or_nan (SFmul prec emax x y) = true.
Proof. now destruct x, y. Qed.

Lemma SFadd_zero_or_nan x y :
  sf_zero_or_nan x = true -> sf_zero_or_nan y = true ->
  sf_zero_or_nan (SFadd prec emax x y) = true.
Proof. now destruct x as [[]|?| |? ? ?], y as [[]|?| |? ? ?]. Qed.

Lemma SFsqrt_zero_or_nan x :
  sf_zero_or_nan x = true -> sf_zero_or_nan (SFsqrt prec emax x) = true.
Proof. now destruct x. Qed.

Lemma SFsub_zero_or_nan x m e :
  sf_zero_or_nan x = true ->
  sf_nonpos (SFsub prec emax x (S754_finite false m e)) = true.
Proof. now destruct x. Qed.


(** Subtracting a normal number from a smaller one *)
Lemma digits2_pos_bound m : Z.pos m < 2 ^ Z.pos (digits2_pos m).
Proof.
  induction m as [m IH|m IH|]; simpl digits2_pos;
    rewrite ?Pos2Z.inj_succ, ?Z.pow_succ_r by lia; lia.
Qed.

Lemma iter_xO_double m d : 2 * Z.pos m <= Z.pos (Pos.iter xO m d).
Proof.
  induction d as [|d IH] using Pos.peano_ind.
  - simpl. lia.
  - rewrite Pos.iter_succ. lia.
Qed.

Lemma canonical_mantissa_bound m e :
  canonical_mantissa prec emax m e = true -> Z.pos m < 2 ^ prec.
Proof.
  unfold canonical_mantissa, fexp. intros H%Z.eqb_eq.
  pose proof (digits2_pos_bound m) as Hm.
  assert (Z.pos (digits2_pos m) <= prec) as Hd by lia.
  pose proof (Z.pow_le_mono_r 2 _ _ ltac:(lia) Hd). lia.
Qed.

Lemma binary_normalize_nonpos z e :
  z <= 0 -> sf_nonpos (binary_normalize prec emax z e false) = true.
Proof.
  destruct z as [|p|p]; simpl; intros H; try lia; try reflexivity.
  apply rounded_nonpos, binary_round_rounded.
Qed.

Lemma SFsub_le_nonpos d mc ec :
  valid_binary d = true -> 2 ^ (prec - 1) <= Z.pos mc ->
  SFleb d (S754_finite false mc ec) = true ->
  sf_nonpos (SFsub prec emax d (S754_finite false mc ec)) = true.
Proof.
  intros Hv Hc.
  destruct d as [s|[]| |[] m e];
    cbv beta iota delta [SFsub SFleb SFcompare cond_Zopp negb];
    try discriminate; try reflexivity; intros Hle.
  - apply binary_normalize_nonpos. lia.
  - apply binary_normalize_nonpos. unfold shl_align.
    apply andb_prop in Hv as [Hv%canonical_mantissa_bound _].
    change (2 ^ prec) with (2 * 2 ^ (prec - 1)) in Hv.
    destruct (Z.compare_spec e ec) as [->|Hlt|Hgt]; try discriminate.
    + rewrite Z.min_id, Z.sub_diag. cbn [fst].
      change (Pos.compare_cont Eq m mc) with (m ?= mc)%positive in Hle.
      destruct (Pos.compare_spec m mc); try discriminate; lia.
    + rewrite Z.min_l by lia. rewrite Z.sub_diag. cbn [fst].
      destruct (e - ec) as [|p|p] eqn:E; try lia. cbn [fst].
      pose proof (iter_xO_double mc p). lia.
Qed.


(** ** Python float operations *)

Lemma Prim2SF_0 : Prim2SF 0 = S754_zero false.
Proof. reflexivity. Qed.

Lemma Prim2SF_2 : Prim2SF 2 = S754_finite false 4503599627370496 (-51).
Proof. reflexivity. Qed.

Lemma Prim2SF_STOP_BUFFER :
  Prim2SF STOP_BUFFER = S754_finite false 5629499534213120 (-51).
Proof. reflexivity. Qed.

Lemma ltb_irrefl x : (x <? x)%float = false.
Proof. rewrite ltb_spec. apply SFltb_irrefl. Qed.

Lemma leb_0_spec x :
  (0 <=? x)%float = sf_nonneg (Prim2SF x) && negb (sf_is_nan (Prim2SF x)).
Proof. rewrite leb_spec, Prim2SF_0. apply SFleb_zero_l. Qed.

Lemma ltb_0_spec x : (0 <? x)%float = sf_pos (Prim2SF x).
Proof. rewrite ltb_spec, Prim2SF_0. apply SFltb_zero_l. Qed.

Lemma leb_0_rounded x : rounded false (Prim2SF x) → (0 <=? x)%float = true.
Proof.
  intros H. rewrite leb_0_spec, (rounded_nonneg _ H), (rounded_not_nan _ _ H).
  reflexivity.
Qed.

Lemma leb_refl x : (0 <=? x)%float = true → (x <=? x)%float = true.
Proof.
  rewrite leb_0_spec, leb_spec. intros [_ H%negb_true_iff]%andb_prop.
  by apply SFleb_refl.
Qed.

Lemma ltb_leb x y : (x <? y)%float = true → (x <=? y)%float = true.
Proof. rewrite ltb_spec, leb_spec. apply SFltb_leb. Qed.

Lemma ltb_trans x y z :
  (x <? y)%float = true → (y <? z)%float = true → (x <? z)%float = true.
Proof.
  rewrite !ltb_spec. intros Hxy Hyz.
  eapply SFleb_ltb_trans; [by apply SFltb_leb|done].
Qed.

Lemma leb_ltb_trans x y z :
  (x <=? y)%float = true → (y <? z)%float = true → (x <? z)%float = true.
Proof. rewrite !ltb_spec, leb_spec. apply SFleb_ltb_trans. Qed.

Lemma ltb_asym x y : (x <? y)%float = true → (y <? x)%float = false.
Proof. rewrite !ltb_spec. apply SFleb_ltb_false. Qed.

Lemma ltb_leb_false x y : (x <? y)%float = true → (y <=? x)%float = false.
Proof. rewrite ltb_spec, leb_spec. apply SFltb_leb_false. Qed.

Lemma Prim2SF_infinity : Prim2SF infinity = S754_infinity false.
Proof. reflexivity. Qed.

(** A number that is not negative and not below +∞ is below no such
    number. *)
Lemma not_lt_infinity x y :
  sf_nonneg (Prim2SF x) = true → sf_nonneg (Prim2SF y) = true →
  (x <? infinity)%float = false → (y <? infinity)%float = false →
  (x <? y)%float = false.
Proof.
  rewrite !ltb_spec, Prim2SF_infinity. intros Hx Hy Hxi Hyi.
  destruct (sf_nonneg_not_lt_infinity _ Hx Hxi) as [->| ->],
    (sf_nonneg_not_lt_infinity _ Hy Hyi) as [->| ->]; done.
Qed.

Lemma math_sqrt_ok x :
  sf_nonneg (Prim2SF x) = true → math_sqrt x = Ok (PrimFloat.sqrt x).
Proof.
  intros H. unfold math_sqrt.
  by rewrite ltb_spec, Prim2SF_0, SFltb_zero_r.
Qed.

Lemma sqrt_nonneg x : sf_nonneg (Prim2SF (PrimFloat.sqrt x)) = true.
Proof. rewrite sqrt_spec. apply SFsqrt_nonneg. Qed.

Lemma py_min_idem v x : py_min v (py_min v x) = py_min v x.
Proof.
  unfold py_min. destruct (x <? v)%float eqn:E; by rewrite ?E, ?ltb_irrefl.
Qed.

Lemma py_min_bounds v x :
  (0 <=? v)%float = true → (0 <=? x)%float = true →
  (0 <=? py_min v x)%float = true ∧ (py_min v x <=? x)%float = true.
Proof.
  intros Hv Hx. unfold py_min. destruct (x <? v)%float eqn:E.
  - auto using leb_refl.
  - split; [done|]. revert Hv Hx E.
    rewrite !leb_0_spec, ltb_spec, leb_spec.
    intros [_ Hv%negb_true_iff]%andb_prop [_ Hx%negb_true_iff]%andb_prop.
    by apply SFleb_total.
Qed.

Lemma ltb_nonneg_bounds v x :
  sf_nonneg (Prim2SF v) = true → (v <? x)%float = true →
  (0 <=? v)%float = true ∧ (v <=? x)%float = true.
Proof.
  intros Hv Hlt. split; [|by apply ltb_leb].
  rewrite leb_0_spec, Hv. rewrite ltb_spec in Hlt.
  by rewrite (SFltb_not_nan_l _ _ Hlt).
Qed.

(** *** Distances *)

Lemma distance_ok p1 p2 :
  ∃ d, distance p1 p2 = Ok d ∧ sf_nonneg (Prim2SF d) = true.
Proof.
  unfold distance. eexists. split.
  - apply math_sqrt_ok. rewrite !add_spec.
    repeat apply SFadd_nonneg; rewrite mul_spec; apply SFmul_self_nonneg.
  - apply sqrt_nonneg.
Qed.

Lemma distance_diag p :
  ∃ d, distance p p = Ok d ∧ sf_zero_or_nan (Prim2SF d) = true.
Proof.
  destruct (distance_ok p p) as (d & Hd & _). exists d. split; [done|].
  unfold distance in Hd. rewrite math_sqrt_ok in Hd.
  - injection Hd as <-. rewrite sqrt_spec, !add_spec, !mul_spec, !sub_spec.
    apply SFsqrt_zero_or_nan.
    repeat apply SFadd_zero_or_nan; apply SFmul_zero_or_nan; apply SFsub_diag.
  - rewrite !add_spec.
    repeat apply SFadd_nonneg; rewrite mul_spec; apply SFmul_self_nonneg.
Qed.

(** *** The two ramps *)

Lemma accelerate_ramp_ok d :
  sf_nonneg (Prim2SF d) = true →
  ∃ v, math_sqrt (2 * accel * d)%float = Ok v ∧ sf_nonneg (Prim2SF v) = true.
Proof.
  intros Hd. eexists. split; [|apply sqrt_nonneg].
  apply math_sqrt_ok. change (2 * accel)%float with 2%float.
  rewrite mul_spec, Prim2SF_2. by apply SFmul_nonneg.
Qed.

Lemma stop_distance_zero d :
  sf_nonpos (Prim2SF (d - STOP_BUFFER)) = true →
  py_max 0 (d - STOP_BUFFER) = 0%float.
Proof.
  intros H. unfold py_max. by rewrite ltb_0_spec, sf_pos_nonpos.
Qed.

Lemma decelerate_ramp_zero d :
  py_max 0 (d - STOP_BUFFER) = 0%float →
  math_sqrt (2 * decel * py_max 0 (d - STOP_BUFFER))%float = Ok 0%float.
Proof. by intros ->. Qed.

Lemma decelerate_ramp_ok d :
  ∃ v, math_sqrt (2 * decel * py_max 0 (d - STOP_BUFFER))%float = Ok v
       ∧ (0 <=? v)%float = true.
Proof.
  unfold py_max. destruct (0 <? d - STOP_BUFFER)%float eqn:E.
  - rewrite ltb_0_spec in E.
    assert (rounded false (Prim2SF (2 * decel * (d - STOP_BUFFER)))) as Hr.
    { change (2 * decel)%float with 2%float.
      rewrite mul_spec, Prim2SF_2. by apply SFmul_pos. }
    eexists. split.
    + apply math_sqrt_ok. by apply rounded_nonneg.
    + apply leb_0_rounded. rewrite sqrt_spec. by apply SFsqrt_rounded.
  - by exists 0%float.
Qed.

(** Within the stop buffer of the last point the ramp is at 0. *)
Lemma stop_buffer_zero d :
  (d <=? STOP_BUFFER)%float = true → py_max 0 (d - STOP_BUFFER) = 0%float.
Proof.
  intros H. apply stop_distance_zero.
  rewrite leb_spec, Prim2SF_STOP_BUFFER in H.
  rewrite sub_spec, Prim2SF_STOP_BUFFER.
  apply SFsub_le_nonpos; [apply Prim2SF_valid|done|done].
Qed.

Lemma zero_or_nan_stop_distance d :
  sf_zero_or_nan (Prim2SF d) = true → py_max 0 (d - STOP_BUFFER) = 0%float.
Proof.
  intros H. apply stop_distance_zero.
  rewrite sub_spec, Prim2SF_STOP_BUFFER. by apply SFsub_zero_or_nan.
Qed.

(** ** The error monad and the Python primitives *)

Lemma bind_Ok {A B} (m : result A) (f : A → result B) b :
  m ≫= f = Ok b ↔ ∃ a, m = Ok a ∧ f a = Ok b.
Proof.
  destruct m as [a|e]; simpl; split.
  - eauto.
  - by intros (? & [= <-] & ?).
  - done.
  - by intros (? & ? & ?).
Qed.

Lemma Ok_inj {A} (a b : A) : Ok a = Ok b → a = b.
Proof. by intros [=]. Qed.

Tactic Notation "bind_step" := cbv beta iota delta [mbind result_bind].
Tactic Notation "bind_step" "in" hyp(H) :=
  cbv beta iota delta [mbind result_bind] in H.

Ltac inv_bind :=
  repeat match goal with
  | H : _ ≫= _ = Ok _ |- _ => apply bind_Ok in H as (? & ? & H)
  | H : Ok _ = Ok _ |- _ => injection H as H
  | H : (_, _) = (_, _) |- _ => injection H as ? ?
  | H : Raise _ = Ok _ |- _ => discriminate H
  end.

Lemma py_index_Ok {A} (l : list A) (i : Z) :
  0 ≤ i < Z.of_nat (length l) →
  ∃ a, py_index l i = Ok a ∧ l !! Z.to_nat i = Some a.
Proof.
  intros Hi. unfold py_index.
  destruct (Z.ltb_spec i 0); [lia|].
  destruct (Z.leb_spec 0 i); [|lia].
  destruct (Z.ltb_spec i (Z.of_nat (length l))); [|lia]. simpl.
  destruct (lookup_lt_is_Some_2 l (Z.to_nat i)) as [a Ha]; [lia|].
  rewrite Ha. eauto.
Qed.

Lemma py_index_inv {A} (l : list A) (i : Z) a :
  py_index l i = Ok a →
  let n := Z.of_nat (length l) in
  - n ≤ i < n ∧ l !! Z.to_nat (i `mod` n) = Some a.
Proof.
  intros H n. unfold py_index in H. fold n in H.
  destruct (Z.ltb_spec i 0) as [Hneg|Hpos].
  - destruct (Z.leb_spec 0 (i + n)); [|done].
    destruct (Z.ltb_spec (i + n) n); [|done]. simpl in H.
    destruct (l !! Z.to_nat (i + n)) eqn:E; [|done].
    injection H as <-. split; [lia|].
    by rewrite <- (Z.mod_unique_pos i n (-1) (i + n)) by lia.
  - destruct (Z.leb_spec 0 i); [|lia].
    destruct (Z.ltb_spec i n); [|done]. simpl in H.
    destruct (l !! Z.to_nat i) eqn:E; [|done].
    injection H as <-. split; [lia|].
    by rewrite Z.mod_small by lia.
Qed.

Lemma py_index_out_of_range {A} (l : list A) (i : Z) :
  i < - Z.of_nat (length l) ∨ Z.of_nat (length l) ≤ i →
  py_index l i = Raise IndexError.
Proof.
  intros Hi. unfold py_index.
  destruct (Z.ltb_spec i 0).
  - destruct (Z.leb_spec 0 (i + Z.of_nat (length l))); [lia|done].
  - destruct (Z.ltb_spec i (Z.of_nat (length l))); [lia|].
    by rewrite andb_false_r.
Qed.

Lemma py_index_minus_1 {A} (l : list A) :
  l ≠ [] → ∃ a, py_index l (-1) = Ok a ∧ last l = Some a.
Proof.
  intros Hl. unfold py_index.
  assert (0 < length l)%nat by (destruct l; [done|simpl; lia]).
  change (-1 <? 0) with true. cbn match.
  destruct (Z.leb_spec 0 (-1 + Z.of_nat (length l))); [|lia].
  destruct (Z.ltb_spec (-1 + Z.of_nat (length l)) (Z.of_nat (length l))); [|lia].
  simpl. rewrite last_lookup.
  replace (Z.to_nat (-1 + Z.of_nat (length l))) with (pred (length l)) by lia.
  destruct (lookup_lt_is_Some_2 l (pred (length l))) as [a Ha]; [lia|].
  rewrite Ha. eauto.
Qed.

Lemma py_mod_Ok a b : b ≠ 0 → py_mod a b = Ok (a `mod` b).
Proof. intros Hb. unfold py_mod. by destruct (Z.eqb_spec b 0). Qed.

Lemma length_py_range a b : length (py_range a b) = Z.to_nat (b - a).
Proof. unfold py_range. by rewrite length_fmap, length_seq. Qed.

Lemma lookup_py_range a b (k : nat) :
  (k < Z.to_nat (b - a))%nat → py_range a b !! k = Some (a + Z.of_nat k).
Proof.
  intros Hk. unfold py_range. rewrite list_lookup_fmap, lookup_seq_lt by done.
  done.
Qed.

(** ** Localisation *)

Lemma closest_scan_ok p wps i closest_dist closest_wp :
  ∃ c, closest_scan p wps i closest_dist closest_wp = Ok c
       ∧ (c = closest_wp ∨ i ≤ c < i + Z.of_nat (length wps)).
Proof.
  revert i closest_dist closest_wp.
  induction wps as [|wp rest IH]; intros i cd cw; simpl.
  - eauto.
  - destruct (distance_ok p (wp_position wp)) as (d & -> & _). simpl.
    destruct (d <? cd)%float.
    + destruct (IH (i + 1) d i) as (c & -> & Hc). exists c. split; [done|lia].
    + destruct (IH (i + 1) cd cw) as (c & -> & Hc). exists c. split; [done|lia].
Qed.

Lemma get_closest_waypoint_ok ps wps :
  wps ≠ [] →
  ∃ c, get_closest_waypoint ps wps = Ok c ∧ 0 ≤ c < Z.of_nat (length wps).
Proof.
  intros Hne. unfold get_closest_waypoint.
  destruct (closest_scan_ok (position (ps_pose ps)) wps 0 infinity 0)
    as (c & -> & Hc).
  exists c. split; [done|]. destruct wps; [done|simpl in *; lia].
Qed.

(** The scan keeps the first point of least distance: no point is closer
    than the one it returns, and no earlier point is as close. *)
Lemma closest_scan_spec p rest i closest_dist closest_wp c :
  closest_wp ≤ i →
  closest_scan p rest i closest_dist closest_wp = Ok c →
  ∃ cd,
    ((c = closest_wp ∧ cd = closest_dist)
     ∨ ∃ (k : nat) wp, rest !! k = Some wp ∧ c = i + Z.of_nat k
                       ∧ distance p (wp_position wp) = Ok cd
                       ∧ (cd <? closest_dist)%float = true)
    ∧ ∀ (k : nat) wp d,
        rest !! k = Some wp → distance p (wp_position wp) = Ok d →
        (d <? cd)%float = false
        ∧ (i + Z.of_nat k < c → (d <=? cd)%float = false).
Proof.
  revert i closest_dist closest_wp.
  induction rest as [|wp0 rest IH]; intros i cd0 cw Hcw; cbn [closest_scan].
  - intros [= <-]. exists cd0. split; [by left|]. by intros k wp d.
  - intros H. apply bind_Ok in H as (d0 & Hd0 & H).
    destruct (d0 <? cd0)%float eqn:E.
    + apply IH in H as (cd & Hc & Hall); [|lia]. exists cd. split.
      * right. destruct Hc as [[-> ->]|(k & wp & Hk & -> & Hd & Hlt)].
        -- exists 0%nat, wp0. split_and!; [done|lia|done|done].
        -- exists (S k), wp. split_and!; [done|lia|done|by eapply ltb_trans].
      * intros [|k] wp d Hwp Hd; simpl in Hwp.
        -- injection Hwp as <-. assert (d = d0) as -> by congruence.
           destruct Hc as [[-> ->]|(k & wp & Hk & -> & Hd' & Hlt)].
           ++ split; [apply ltb_irrefl|lia].
           ++ split; [by apply ltb_asym|]. intros _. by apply ltb_leb_false.
        -- destruct (Hall k wp d Hwp Hd) as [H1 H2]. split; [done|].
           intros Hlt. apply H2. lia.
    + apply IH in H as (cd & Hc & Hall); [|lia]. exists cd. split.
      * destruct Hc as [[-> ->]|(k & wp & Hk & -> & Hd & Hlt)]; [by left|].
        right. exists (S k), wp. split_and!; [done|lia|done|done].
      * intros [|k] wp d Hwp Hd; simpl in Hwp.
        -- injection Hwp as <-. assert (d = d0) as -> by congruence.
           destruct Hc as [[-> ->]|(k & wp & Hk & -> & Hd' & Hlt)].
           ++ split; [done|lia].
           ++ split.
              ** destruct (d0 <? cd)%float eqn:E'; [|done].
                 by rewrite (ltb_trans _ _ _ E' Hlt) in E.
              ** intros _. destruct (d0 <=? cd)%float eqn:E'; [|done].
                 by rewrite (leb_ltb_trans _ _ _ E' Hlt) in E.
        -- destruct (Hall k wp d Hwp Hd) as [H1 H2]. split; [done|].
           intros Hlt. apply H2. lia.
Qed.

Lemma get_closest_waypoint_minimal ps wps c wpc dc :
  get_closest_waypoint ps wps = Ok c →
  wps !! Z.to_nat c = Some wpc →
  distance (position (ps_pose ps)) (wp_position wpc) = Ok dc →
  ∀ (j : nat) wp dj,
    wps !! j = Some wp →
    distance (position (ps_pose ps)) (wp_position wp) = Ok dj →
    (dj <? dc)%float = false ∧ (Z.of_nat j < c → (dj <=? dc)%float = false).
Proof.
  unfold get_closest_waypoint. intros H Hwpc Hdc j wp dj Hwp Hdj.
  apply closest_scan_spec in H as (cd & Hc & Hall); [|done].
  destruct Hc as [[-> ->]|(k & wp' & Hk & -> & Hd & _)].
  - split; [|lia]. simpl in Hwpc.
    destruct (distance_ok (position (ps_pose ps)) (wp_position wp))
      as (dj' & Hdj' & Hnnj).
    destruct (distance_ok (position (ps_pose ps)) (wp_position wpc))
      as (dc' & Hdc' & Hnnc).
    assert (dj' = dj) as -> by congruence. assert (dc' = dc) as -> by congruence.
    apply not_lt_infinity; [done|done|..].
    + by destruct (Hall j wp dj Hwp Hdj).
    + by destruct (Hall 0%nat wpc dc Hwpc Hdc).
  - rewrite Z.add_0_l, Nat2Z.id in Hwpc. assert (wp' = wpc) as -> by congruence.
    assert (cd = dc) as -> by congruence.
    destruct (Hall j wp dj Hwp Hdj) as [H1 H2]. split; [done|].
    intros Hlt. apply H2. lia.
Qed.

Lemma get_next_waypoint_ok ps wps :
  wps ≠ [] →
  ∃ n, get_next_waypoint ps wps = Ok n ∧ 0 ≤ n < Z.of_nat (length wps).
Proof.
  intros Hne. unfold get_next_waypoint.
  destruct (get_closest_waypoint_ok ps wps Hne) as (c & -> & Hc). simpl.
  rewrite py_mod_Ok by lia. simpl.
  pose proof (Z.mod_pos_bound (c + 1) (Z.of_nat (length wps)) ltac:(lia)) as Hm.
  destruct (py_index_Ok wps c Hc) as (wp0 & -> & _). simpl.
  destruct (py_index_Ok wps _ Hm) as (wp1 & -> & _). simpl.
  match goal with |- context [if ?b then _ else _] => destruct b end; eauto.
Qed.

(** ** Window extraction *)

Lemma waypoint_eta (wp : Waypoint) : {| pose := pose wp; twist := twist wp |} = wp.
Proof. by destruct wp. Qed.

Lemma copy_waypoints_ok wps idx :
  wps ≠ [] →
  ∃ out, copy_waypoints wps idx = Ok out
         ∧ length out = length idx
         ∧ ∀ (k : nat) i, idx !! k = Some i →
             out !! k = wps !! Z.to_nat (i `mod` Z.of_nat (length wps))
             ∧ is_Some (out !! k).
Proof.
  intros Hne. assert (0 < Z.of_nat (length wps)) as Hn.
  { destruct wps; [done|simpl; lia]. }
  induction idx as [|i idx IH]; simpl.
  - exists []. by split_and!.
  - rewrite py_mod_Ok by lia. simpl.
    pose proof (Z.mod_pos_bound i (Z.of_nat (length wps)) Hn) as Hm.
    destruct (py_index_Ok wps _ Hm) as (src & -> & Hsrc). simpl.
    destruct IH as (rest & -> & Hlen & Hrest). simpl.
    eexists. split; [done|]. split; [simpl; by rewrite Hlen|].
    intros [|k] j; simpl.
    + intros [= <-]. by rewrite waypoint_eta, Hsrc.
    + apply Hrest.
Qed.

Lemma extract_ok wps start_wp end_wp :
  wps ≠ [] →
  let n := Z.of_nat (length wps) in
  let end_wp' := if end_wp <? start_wp then end_wp + n else end_wp in
  ∃ out, extract wps start_wp end_wp = Ok out
         ∧ length out = Z.to_nat (end_wp' + 1 - start_wp)
         ∧ ∀ k : nat, (k < length out)%nat →
             out !! k = wps !! Z.to_nat ((start_wp + Z.of_nat k) `mod` n)
             ∧ is_Some (out !! k).
Proof.
  intros Hne n end_wp'. unfold extract. fold n. fold end_wp'.
  destruct (copy_waypoints_ok wps (py_range start_wp (end_wp' + 1)) Hne)
    as (out & -> & Hlen & Hout).
  rewrite length_py_range in Hlen.
  exists out. split; [done|]. split; [done|].
  intros k Hk. apply Hout, lookup_py_range. lia.
Qed.

(** ** Velocity shaping *)

Lemma set_speed_id wp : set_speed wp (wp_speed wp) = wp.
Proof. by destruct wp as [? [? [[] ?]]]. Qed.

Lemma wp_speed_set_speed wp v : wp_speed (set_speed wp v) = v.
Proof. done. Qed.

Lemma wp_position_set_speed wp v : wp_position (set_speed wp v) = wp_position wp.
Proof. done. Qed.

Lemma reshaped_refl wp : reshaped wp wp.
Proof. unfold reshaped. by rewrite set_speed_id. Qed.

Lemma slowed_refl wp : slowed wp wp.
Proof. split; [apply reshaped_refl|]. auto using leb_refl. Qed.

(** *** Accelerate *)

Lemma Forall2_slowed_refl wps : Forall2 slowed wps wps.
Proof. induction wps; constructor; auto using slowed_refl. Qed.

Lemma accelerate_loop_ok start wps :
  ∃ out, accelerate_loop start wps = Ok out ∧ Forall2 slowed wps out.
Proof.
  induction wps as [|wp rest IH]; cbn [accelerate_loop].
  - eauto.
  - destruct (distance_ok start (wp_position wp)) as (d & -> & Hd). bind_step.
    destruct (accelerate_ramp_ok d Hd) as (v & -> & Hv). bind_step.
    destruct (v <? wp_speed wp)%float eqn:E.
    + destruct IH as (rest' & -> & Hrest).
      eexists. split; [done|]. constructor; [|done].
      split; [done|]. intros _. by apply ltb_nonneg_bounds.
    + eexists. split; [done|]. apply Forall2_slowed_refl.
Qed.

Lemma accelerate_loop_idem start wps out :
  accelerate_loop start wps = Ok out → accelerate_loop start out = Ok out.
Proof.
  destruct wps as [|wp rest]; cbn [accelerate_loop].
  - by intros [= <-].
  - intros H. apply bind_Ok in H as (d & Hd & H).
    apply bind_Ok in H as (v & Hv & H).
    destruct (v <? wp_speed wp)%float eqn:E.
    + apply bind_Ok in H as (rest' & _ & [= <-]). cbn [accelerate_loop].
      rewrite wp_position_set_speed, Hd. bind_step. rewrite Hv. bind_step.
      by rewrite wp_speed_set_speed, ltb_irrefl.
    + injection H as <-. cbn [accelerate_loop].
      rewrite Hd. bind_step. rewrite Hv. bind_step. by rewrite E.
Qed.

Lemma set_last_starting_point_id self :
  set_last_starting_point self (last_starting_point self) = self.
Proof. by destruct self. Qed.

Lemma accelerate_inv self wps out self' :
  accelerate self wps = Ok (out, self') →
  Forall2 slowed wps out
  ∧ self' = set_last_starting_point self (last_starting_point self').
Proof.
  unfold accelerate. intros H. apply bind_Ok in H as (s & Hs & H).
  assert (s = set_last_starting_point self (last_starting_point s)) as Hs'.
  { destruct (_ <=? _)%float; [destruct (current_pose self)|]; inv_bind;
      subst; by rewrite ?set_last_starting_point_id. }
  destruct (last_starting_point s) as [start|] eqn:E; inv_bind; subst self'.
  - destruct (accelerate_loop_ok start wps) as (out' & Hout & HF).
    rewrite E. split; [congruence|done].
  - rewrite E. subst out. split; [apply Forall2_slowed_refl|done].
Qed.

Lemma accelerate_ok self wps ps :
  current_pose self = Some ps → ∃ out self', accelerate self wps = Ok (out, self').
Proof.
  intros Hps. unfold accelerate. rewrite Hps.
  destruct (_ <=? _)%float; simpl.
  - destruct (accelerate_loop_ok (position (ps_pose ps)) wps) as (out & -> & _).
    simpl. eauto.
  - destruct (last_starting_point self) as [start|]; [|eauto].
    destruct (accelerate_loop_ok start wps) as (out & -> & _). simpl. eauto.
Qed.

Lemma accelerate_idem self wps out self' :
  accelerate self wps = Ok (out, self') →
  accelerate self' out = Ok (out, self') ∧ accelerate self out = Ok (out, self').
Proof.
  unfold accelerate. intros H.
  destruct (current_velocity self <=? standstill)%float eqn:E.
  - destruct (current_pose self) as [ps|] eqn:Hps; [|done]. simpl in *.
    inv_bind. subst. simpl. rewrite E, Hps. simpl.
    by erewrite accelerate_loop_idem.
  - simpl in *. destruct (last_starting_point self) as [start|] eqn:Hs;
      inv_bind; subst; rewrite E; simpl; rewrite Hs; [|done].
    by erewrite accelerate_loop_idem.
Qed.

(** *** Decelerate *)

Lemma decelerate_body_ok last_pos wp :
  ∃ d v, distance (wp_position wp) last_pos = Ok d
         ∧ math_sqrt (2 * decel * py_max 0 (d - STOP_BUFFER))%float = Ok v
         ∧ (0 <=? v)%float = true
         ∧ decelerate_body last_pos wp = Ok (set_speed wp (py_min v (wp_speed wp))).
Proof.
  unfold decelerate_body.
  destruct (distance_ok (wp_position wp) last_pos) as (d & Hd & _).
  destruct (decelerate_ramp_ok d) as (v & Hv & Hv0).
  exists d, v. rewrite Hd. bind_step. rewrite Hv. by bind_step.
Qed.

Lemma decelerate_body_slowed last_pos wp wp' :
  decelerate_body last_pos wp = Ok wp' → slowed wp wp'.
Proof.
  destruct (decelerate_body_ok last_pos wp) as (d & v & _ & _ & Hv & ->).
  intros [= <-]. split; [done|]. intros Hx. by apply py_min_bounds.
Qed.

Lemma decelerate_body_idem last_pos wp wp' :
  decelerate_body last_pos wp = Ok wp' → decelerate_body last_pos wp' = Ok wp'.
Proof.
  destruct (decelerate_body_ok last_pos wp) as (d & v & Hd & Hv & _ & ->).
  intros [= <-]. unfold decelerate_body.
  rewrite wp_position_set_speed, Hd. bind_step. rewrite Hv. bind_step.
  by rewrite wp_speed_set_speed, py_min_idem.
Qed.

(** A point whose ramp distance is 0 gets the smaller of 0 and its speed. *)
Lemma decelerate_body_zero last_pos wp d :
  distance (wp_position wp) last_pos = Ok d →
  py_max 0 (d - STOP_BUFFER) = 0%float →
  decelerate_body last_pos wp = Ok (set_speed wp (py_min 0 (wp_speed wp))).
Proof.
  intros Hd H0. unfold decelerate_body. rewrite Hd. bind_step.
  rewrite (decelerate_ramp_zero _ H0). by bind_step.
Qed.

Lemma decelerate_body_last wp :
  decelerate_body (wp_position wp) (set_speed wp 0) = Ok (set_speed wp 0).
Proof.
  destruct (distance_diag (wp_position wp)) as (d & Hd & Hzn).
  by rewrite (decelerate_body_zero (wp_position wp) (set_speed wp 0) d Hd
                (zero_or_nan_stop_distance d Hzn)).
Qed.

Lemma decelerate_loop_ok last_pos wps :
  ∃ out, decelerate_loop last_pos wps = Ok out
         ∧ Forall2 (λ wp wp', decelerate_body last_pos wp = Ok wp') wps out.
Proof.
  induction wps as [|wp rest IH]; cbn [decelerate_loop].
  - eauto.
  - destruct (decelerate_body_ok last_pos wp) as (d & v & _ & _ & _ & Hwp).
    rewrite Hwp. bind_step. destruct IH as (rest' & -> & Hrest). bind_step.
    eexists. split; [done|]. by constructor.
Qed.

Lemma decelerate_loop_app last_pos l1 l2 :
  decelerate_loop last_pos (l1 ++ l2) =
  l1' ← decelerate_loop last_pos l1;
  l2' ← decelerate_loop last_pos l2;
  Ok (l1' ++ l2').
Proof.
  induction l1 as [|wp l1 IH]; cbn [decelerate_loop app].
  - bind_step. by destruct (decelerate_loop last_pos l2).
  - destruct (decelerate_body last_pos wp); bind_step; [|done].
    rewrite IH. destruct (decelerate_loop last_pos l1); bind_step; [|done].
    by destruct (decelerate_loop last_pos l2).
Qed.

Lemma decelerate_loop_idem last_pos wps out :
  decelerate_loop last_pos wps = Ok out → decelerate_loop last_pos out = Ok out.
Proof.
  revert out. induction wps as [|wp rest IH]; intros out; cbn [decelerate_loop].
  - by intros [= <-].
  - intros H. apply bind_Ok in H as (wp' & Hwp & H).
    apply bind_Ok in H as (rest' & Hrest & [= <-]). cbn [decelerate_loop].
    rewrite (decelerate_body_idem _ _ _ Hwp). bind_step.
    rewrite (IH _ Hrest). by bind_step.
Qed.

(** The pass on a window given by its points before the last and its last
    point. *)
Lemma decelerate_snoc front lst :
  decelerate (front ++ [lst]) =
  front' ← decelerate_loop (wp_position lst) front;
  Ok (front' ++ [set_speed lst 0]).
Proof.
  unfold decelerate. rewrite length_app. cbn [length].
  replace (Z.of_nat (length front + 1) - 1) with (Z.of_nat (length front)) by lia.
  destruct (py_index_Ok (front ++ [lst]) (Z.of_nat (length front)))
    as (a & -> & Ha); [rewrite length_app; simpl; lia|].
  rewrite Nat2Z.id in *. rewrite list_lookup_middle in Ha by done.
  injection Ha as <-. bind_step.
  rewrite insert_app_r_alt, Nat.sub_diag by done. cbn [insert list_insert].
  rewrite decelerate_loop_app.
  destruct (decelerate_loop (wp_position lst) front); bind_step; [|done].
  cbn [decelerate_loop]. rewrite decelerate_body_last. by bind_step.
Qed.

Lemma snoc_inv {A} (l : list A) : l ≠ [] → ∃ front lst, l = front ++ [lst].
Proof.
  destruct l as [|x l] using rev_ind; [done|]. eauto.
Qed.

Lemma decelerate_slowed wps out :
  decelerate wps = Ok out → Forall2 slowed wps out.
Proof.
  destruct wps as [|wp wps _] using rev_ind; [done|].
  rewrite decelerate_snoc. intros H. apply bind_Ok in H as (front' & Hf & [= <-]).
  destruct (decelerate_loop_ok (wp_position wp) wps) as (out & Hout & HF).
  assert (out = front') as -> by congruence.
  apply Forall2_app.
  - eapply Forall2_impl; [done|]. apply decelerate_body_slowed.
  - constructor; [|done]. split; [done|]. intros H. by split.
Qed.

(** * The claims *)

(** ** Decelerate *)

(** C4: on a non-empty window whose speeds are not negative, [decelerate]
    returns a window of the same length whose last point has target speed
    exactly 0 and whose points all have a target speed at most the one they
    had before the pass. *)
Theorem decelerate_stops_at_last wps :
  wps ≠ [] →
  Forall (λ wp, (0 <=? wp_speed wp)%float = true) wps →
  ∃ out, decelerate wps = Ok out
         ∧ length out = length wps
         ∧ wp_speed <$> last out = Some 0%float
         ∧ ∀ i wp wp', wps !! i = Some wp → out !! i = Some wp' →
             (wp_speed wp' <=? wp_speed wp)%float = true.
Proof.
  intros Hne Hpos.
  destruct (decelerate wps) as [out|e] eqn:Hdec.
  - exists out. pose proof (decelerate_slowed _ _ Hdec) as HF.
    split; [done|]. split; [by rewrite (Forall2_length _ _ _ HF)|]. split.
    + destruct (snoc_inv wps Hne) as (front & lst & ->).
      rewrite decelerate_snoc in Hdec.
      apply bind_Ok in Hdec as (front' & _ & [= <-]). by rewrite last_snoc.
    + intros i wp wp' Hwp Hwp'.
      destruct (Forall2_lookup_lr _ _ _ _ _ _ HF Hwp Hwp') as [_ Hb].
      apply Hb. by eapply (Forall_lookup_1 _ _ _ _ Hpos).
  - exfalso. destruct (snoc_inv wps Hne) as (front & lst & ->).
    rewrite decelerate_snoc in Hdec.
    by destruct (decelerate_loop_ok (wp_position lst) front) as (? & Hf & _);
      rewrite Hf in Hdec.
Qed.

Lemma decelerate_stops_at_last_witness :
  ∃ out, decelerate route5 = Ok out
         ∧ length out = length route5
         ∧ wp_speed <$> last out = Some 0%float
         ∧ ∀ i wp wp', route5 !! i = Some wp → out !! i = Some wp' →
             (wp_speed wp' <=? wp_speed wp)%float = true.
Proof.
  apply (decelerate_stops_at_last route5).
  - discriminate.
  - repeat constructor.
Defined.

(** C10, as stated, fails on a point of negative speed: one unit before the
    last point, with speed -1, it keeps the speed -1. *)
Lemma decelerate_buffer_negative_speed :
  ∃ out wp',
    decelerate [mk_wp 0 0 (-1); mk_wp 1 0 5] = Ok out
    ∧ distance (wp_position (mk_wp 0 0 (-1))) (wp_position (mk_wp 1 0 5)) = Ok 1%float
    ∧ (1 <=? STOP_BUFFER)%float = true
    ∧ out !! 0%nat = Some wp'
    ∧ wp_speed wp' = (-1)%float
    ∧ wp_speed wp' ≠ 0%float.
Proof.
  eexists _, _. split; [vm_compute; reflexivity|].
  split; [vm_compute; reflexivity|]. split; [reflexivity|].
  split; [reflexivity|]. split; [reflexivity|].
  intros H. apply (f_equal (λ x, (x <? 0)%float)) in H. vm_compute in H.
  discriminate.
Qed.

(** C10, amended: in the Decelerate pass, every window point whose speed is
    not negative and whose distance to the last point of the window is at
    most the stop buffer gets target speed exactly 0. *)
Theorem decelerate_buffer_zone wps out (i : nat) wp wp' lst d :
  decelerate wps = Ok out →
  last wps = Some lst →
  wps !! i = Some wp →
  out !! i = Some wp' →
  distance (wp_position wp) (wp_position lst) = Ok d →
  (d <=? STOP_BUFFER)%float = true →
  (wp_speed wp <? 0)%float = false →
  wp_speed wp' = 0%float.
Proof.
  intros Hdec Hlast Hwp Hwp' Hd Hle Hneg.
  destruct wps as [|lst' front _] using rev_ind; [done|].
  rewrite last_snoc in Hlast. injection Hlast as ->.
  rewrite decelerate_snoc in Hdec.
  apply bind_Ok in Hdec as (front' & Hfront & [= <-]).
  destruct (decelerate_loop_ok (wp_position lst) front) as (out & Hout & HF).
  assert (out = front') as -> by congruence.
  pose proof (Forall2_length _ _ _ HF) as Hlen.
  destruct (decide (i < length front)%nat) as [Hi|Hi].
  - rewrite lookup_app_l in Hwp, Hwp' by lia.
    pose proof (Forall2_lookup_lr _ _ _ _ _ _ HF Hwp Hwp') as Hbody.
    cbv beta in Hbody.
    rewrite (decelerate_body_zero _ _ d Hd (stop_buffer_zero d Hle)) in Hbody.
    injection Hbody as <-. rewrite wp_speed_set_speed.
    unfold py_min. by rewrite Hneg.
  - apply lookup_lt_Some in Hwp as Hi'. rewrite length_app in Hi'. simpl in Hi'.
    assert (i = length front') as -> by lia.
    rewrite list_lookup_middle in Hwp' by done. by injection Hwp' as <-.
Qed.

Lemma decelerate_buffer_zone_witness :
  wp_speed (set_speed (mk_wp 9 0 11) 0) = 0%float.
Proof.
  apply (decelerate_buffer_zone
           [mk_wp 9 0 11; mk_wp 10 0 11]
           [set_speed (mk_wp 9 0 11) 0; set_speed (mk_wp 10 0 11) 0]
           0 (mk_wp 9 0 11) _ (mk_wp 10 0 11) 1%float).
  - vm_compute. reflexivity.
  - reflexivity.
  - reflexivity.
  - reflexivity.
  - vm_compute. reflexivity.
  - reflexivity.
  - reflexivity.
Defined.

(** ** Idempotence *)

(** C8: with the node and the positions unchanged, shaping a shaped window
    again returns it as it is: [accelerate] after [accelerate], and
    [decelerate] after [decelerate] (an exception of the first pass is the
    result of both sides). *)
Theorem shaping_idempotent :
  (∀ self wps,
     accelerate self wps ≫= (λ '(out, self'), accelerate self' out)
     = accelerate self wps)
  ∧ (∀ self wps,
     accelerate self wps ≫= (λ '(out, _), accelerate self out)
     = accelerate self wps)
  ∧ (∀ wps, decelerate wps ≫= decelerate = decelerate wps).
Proof.
  split_and!.
  - intros self wps. destruct (accelerate self wps) as [[out self']|e] eqn:E;
      [|done].
    by apply accelerate_idem in E as [? ?].
  - intros self wps. destruct (accelerate self wps) as [[out self']|e] eqn:E;
      [|done].
    by apply accelerate_idem in E as [? ?].
  - intros wps. destruct wps as [|lst front _] using rev_ind; [done|].
    rewrite decelerate_snoc.
    destruct (decelerate_loop (wp_position lst) front) as [front'|e] eqn:E;
      [|done].
    bind_step. rewrite decelerate_snoc. rewrite wp_position_set_speed.
    by rewrite (decelerate_loop_idem _ _ _ E).
Qed.

(** ** Window extraction and localisation *)

Lemma get_final_waypoints_inv self wps start_wp end_wp final self' :
  get_final_waypoints self wps start_wp end_wp = Ok (final, self') →
  ∃ raw, extract wps start_wp end_wp = Ok raw
         ∧ Forall2 slowed raw final
         ∧ self' = set_last_starting_point self (last_starting_point self')
         ∧ (if braking self then decelerate raw = Ok final
            else accelerate self raw = Ok (final, self')).
Proof.
  unfold get_final_waypoints. intros H. apply bind_Ok in H as (raw & Hraw & H).
  exists raw. split; [done|]. destruct (braking self).
  - apply bind_Ok in H as (out & Hdec & [= <- <-]).
    split; [by apply decelerate_slowed|].
    by rewrite set_last_starting_point_id.
  - by destruct (accelerate_inv _ _ _ _ H).
Qed.

(** C6: on a route of [n ≥ 2] points, for [0 ≤ end_wp < start_wp < n], the
    extraction produces [(end_wp + n - start_wp) mod n + 1] points, the k-th
    of which is the route point of index [(start_wp + k) mod n]; the window
    that [get_final_waypoints] returns has these points, up to their target
    speeds. *)
Theorem extract_wrapped wps start_wp end_wp :
  let n := Z.of_nat (length wps) in
  2 ≤ n → 0 ≤ end_wp → end_wp < start_wp → start_wp < n →
  ∃ out, extract wps start_wp end_wp = Ok out
         ∧ Z.of_nat (length out) = (end_wp + n - start_wp) `mod` n + 1
         ∧ (∀ k : nat, (k < length out)%nat →
              0 ≤ (start_wp + Z.of_nat k) `mod` n < n
              ∧ ∃ wp, wps !! Z.to_nat ((start_wp + Z.of_nat k) `mod` n) = Some wp
                      ∧ out !! k = Some wp)
         ∧ (∀ self final self',
              get_final_waypoints self wps start_wp end_wp = Ok (final, self') →
              Forall2 reshaped out final).
Proof.
  intros n Hn Hend Hlt Hstart.
  assert (wps ≠ []) as Hne by (intros ->; simpl in n; lia).
  destruct (extract_ok wps start_wp end_wp Hne) as (out & Hout & Hlen & Hk).
  fold n in Hlen, Hk. destruct (Z.ltb_spec end_wp start_wp); [|lia].
  exists out. split_and!; [done| | |].
  - rewrite Hlen, Z.mod_small by lia. lia.
  - intros k Hklt. split; [apply Z.mod_pos_bound; lia|].
    destruct (Hk k Hklt) as [Heq [wp Hwp]]. exists wp. by rewrite <- Heq.
  - intros self final self' Hfinal.
    apply get_final_waypoints_inv in Hfinal as (raw & Hraw & HF & _).
    assert (raw = out) as -> by congruence.
    eapply Forall2_impl; [done|]. by intros ? ? [? _].
Qed.

Lemma extract_wrapped_witness :
  ∃ out, extract route5 3 1 = Ok out
         ∧ Z.of_nat (length out) = (1 + 5 - 3) `mod` 5 + 1
         ∧ (∀ k : nat, (k < length out)%nat →
              0 ≤ (3 + Z.of_nat k) `mod` 5 < 5
              ∧ ∃ wp, route5 !! Z.to_nat ((3 + Z.of_nat k) `mod` 5) = Some wp
                      ∧ out !! k = Some wp)
         ∧ (∀ self final self',
              get_final_waypoints self route5 3 1 = Ok (final, self') →
              Forall2 reshaped out final).
Proof.
  apply (extract_wrapped route5 3 1); simpl; lia.
Defined.

(** C7: on a route of [n ≥ 2] points, [get_next_waypoint] returns the
    circular successor of the closest point when the dot product
    (pose - wp0)·(wp1 - wp0) is at least 0, and the closest point itself
    otherwise; the result is an index of the route.  The closest point wp0
    is the first route point of least distance to the pose: no route point
    is closer, and no earlier one is as close. *)
Theorem next_waypoint_selection ps wps :
  let n := Z.of_nat (length wps) in
  2 ≤ n →
  ∃ closest wp0 wp1 next d0,
    get_closest_waypoint ps wps = Ok closest
    ∧ 0 ≤ closest < n
    ∧ wps !! Z.to_nat closest = Some wp0
    ∧ wps !! Z.to_nat ((closest + 1) `mod` n) = Some wp1
    ∧ get_next_waypoint ps wps = Ok next
    ∧ next = (if (0 <=? projection ps wp0 wp1)%float
              then (closest + 1) `mod` n else closest)
    ∧ 0 ≤ next < n
    ∧ distance (position (ps_pose ps)) (wp_position wp0) = Ok d0
    ∧ ∀ (j : nat) wp dj,
        wps !! j = Some wp →
        distance (position (ps_pose ps)) (wp_position wp) = Ok dj →
        (dj <? d0)%float = false
        ∧ (Z.of_nat j < closest → (dj <=? d0)%float = false).
Proof.
  intros n Hn.
  assert (wps ≠ []) as Hne by (intros ->; simpl in n; lia).
  destruct (get_closest_waypoint_ok ps wps Hne) as (c & Hc & Hcn). fold n in Hcn.
  pose proof (Z.mod_pos_bound (c + 1) n ltac:(lia)) as Hm.
  destruct (py_index_Ok wps c Hcn) as (wp0 & Hi0 & Hwp0).
  destruct (py_index_Ok wps _ Hm) as (wp1 & Hi1 & Hwp1).
  destruct (distance_ok (position (ps_pose ps)) (wp_position wp0)) as (d0 & Hd0 & _).
  exists c, wp0, wp1,
    (if (0 <=? projection ps wp0 wp1)%float then (c + 1) `mod` n else c), d0.
  split; [done|]. split; [done|]. split; [done|]. split; [done|].
  split; [|split; [done|]].
  - unfold get_next_waypoint. rewrite Hc. bind_step.
    rewrite py_mod_Ok by lia. bind_step. fold n. rewrite Hi0. bind_step.
    rewrite Hi1. bind_step. fold (projection ps wp0 wp1).
    by destruct (0 <=? projection ps wp0 wp1)%float.
  - split; [destruct (0 <=? projection ps wp0 wp1)%float; lia|].
    split; [done|]. by apply get_closest_waypoint_minimal with wp0.
Qed.

Lemma next_waypoint_selection_witness :
  ∃ closest wp0 wp1 next d0,
    get_closest_waypoint (mk_pose 12 0) route5 = Ok closest
    ∧ 0 ≤ closest < 5
    ∧ route5 !! Z.to_nat closest = Some wp0
    ∧ route5 !! Z.to_nat ((closest + 1) `mod` 5) = Some wp1
    ∧ get_next_waypoint (mk_pose 12 0) route5 = Ok next
    ∧ next = (if (0 <=? projection (mk_pose 12 0) wp0 wp1)%float
              then (closest + 1) `mod` 5 else closest)
    ∧ 0 ≤ next < 5
    ∧ distance (position (ps_pose (mk_pose 12 0))) (wp_position wp0) = Ok d0
    ∧ ∀ (j : nat) wp dj,
        route5 !! j = Some wp →
        distance (position (ps_pose (mk_pose 12 0))) (wp_position wp) = Ok dj →
        (dj <? d0)%float = false
        ∧ (Z.of_nat j < closest → (dj <=? d0)%float = false).
Proof.
  apply (next_waypoint_selection (mk_pose 12 0) route5). simpl. lia.
Defined.

(** ** The cycle *)

Lemma set_braking_id self : set_braking self (braking self) = self.
Proof. by destruct self. Qed.

(** What a cycle that returns has done. *)
Lemma loop_inv self out self' :
  loop self = Ok (out, self') →
  match base_waypoints self, current_pose self with
  | Some lane, Some ps =>
      ∃ next_wp end_wp b final,
        out = Some final
        ∧ get_next_waypoint ps (waypoints lane) = Ok next_wp
        ∧ get_final_waypoints (set_braking self b) (waypoints lane) next_wp end_wp
          = Ok (final, self')
        ∧ ((traffic_waypoint self = -1 ∧ b = false
            ∧ end_wp = next_wp + LOOKAHEAD_WPS)
           ∨ (traffic_waypoint self ≠ -1 ∧ braking self = false ∧ b = false
              ∧ end_wp = next_wp + LOOKAHEAD_WPS)
           ∨ (traffic_waypoint self ≠ -1 ∧ b = true
              ∧ end_wp = traffic_waypoint self))
  | _, _ => out = None ∧ self' = self
  end.
Proof.
  unfold loop.
  destruct (base_waypoints self) as [lane|]; [|by intros [= <- <-]].
  destruct (current_pose self) as [ps|]; [|by intros [= <- <-]].
  intros H. apply bind_Ok in H as (next_wp & Hnext & H).
  apply bind_Ok in H as (tl_wp & _ & H).
  apply bind_Ok in H as (tl_dist & _ & H).
  apply bind_Ok in H as (v2 & _ & H).
  exists next_wp.
  destruct (Z.eqb_spec (traffic_waypoint self) (-1)) as [Htw|Htw].
  - apply bind_Ok in H as ([final s] & Hfinal & [= <- <-]).
    exists (next_wp + LOOKAHEAD_WPS), false, final. auto 10.
  - destruct (braking self) eqn:Hb; cbn [negb andb] in H.
    + apply bind_Ok in H as ([final s] & Hfinal & [= <- <-]).
      exists (traffic_waypoint self), true, final. auto 10.
    + destruct (tl_dist <? _)%float;
        apply bind_Ok in H as ([final s] & Hfinal & [= <- <-]).
      * exists (next_wp + LOOKAHEAD_WPS), false, final.
        rewrite <- Hb at 1. rewrite set_braking_id. auto 10.
      * exists (traffic_waypoint self), true, final. auto 10.
Qed.

Lemma get_next_waypoint_nonempty ps wps n :
  get_next_waypoint ps wps = Ok n → wps ≠ [].
Proof. by intros H ->. Qed.

(** A cycle keeps the mode BRAKING as long as the stop signal is present. *)
Lemma loop_keeps_braking self out self' :
  loop self = Ok (out, self') →
  braking self = true → traffic_waypoint self ≠ -1 →
  braking self' = true ∧ traffic_waypoint self' = traffic_waypoint self.
Proof.
  intros H Hb Htw. apply loop_inv in H.
  destruct (base_waypoints self) as [lane|]; [|by destruct H as [_ ->]].
  destruct (current_pose self) as [ps|]; [|by destruct H as [_ ->]].
  destruct H as (next_wp & end_wp & b & final & _ & _ & Hfinal & Hcase).
  apply get_final_waypoints_inv in Hfinal as (_ & _ & _ & -> & _).
  destruct Hcase as [[? _]|[(_ & ? & _)|(_ & -> & _)]]; [done|congruence|done].
Qed.

(** C3: in every run of the node (messages and cycles in any order), once
    the mode is BRAKING it is still BRAKING after the run, as long as the
    stop signal is present and no message sets it to none (-1); distances
    and speeds play no part. *)
Theorem braking_persists es self self' :
  braking self = true →
  traffic_waypoint self ≠ -1 →
  Forall (λ e, e ≠ TrafficMsg (-1)) es →
  run self es = Ok self' →
  braking self' = true ∧ traffic_waypoint self' ≠ -1.
Proof.
  revert self. induction es as [|e es IH]; intros self Hb Htw Hes; cbn [run].
  - by intros [= <-].
  - apply Forall_cons in Hes as [He Hes]. intros H.
    apply bind_Ok in H as (s & Hs & H). revert H. apply IH; [| |done].
    + destruct e; simpl in Hs; try (by injection Hs as <-).
      apply bind_Ok in Hs as ([out s'] & Hloop & [= <-]).
      by destruct (loop_keeps_braking _ _ _ Hloop Hb Htw).
    + destruct e; simpl in Hs; try (by injection Hs as <-).
      * injection Hs as <-. simpl. congruence.
      * apply bind_Ok in Hs as ([out s'] & Hloop & [= <-]).
        destruct (loop_keeps_braking _ _ _ Hloop Hb Htw). congruence.
Qed.

Lemma braking_persists_witness :
  ∃ self',
    run (node5 0 10 3 true)
      [Cycle; PoseMsg (mk_pose 25 0); TrafficMsg 2; VelocityMsg (mk_twist 0); Cycle]
    = Ok self'
    ∧ braking self' = true ∧ traffic_waypoint self' ≠ -1.
Proof.
  eexists. split; [vm_compute; reflexivity|].
  eapply (braking_persists
            [Cycle; PoseMsg (mk_pose 25 0); TrafficMsg 2; VelocityMsg (mk_twist 0); Cycle]
            (node5 0 10 3 true)).
  - reflexivity.
  - discriminate.
  - repeat constructor; discriminate.
  - vm_compute. reflexivity.
Defined.

(** C5: when a cycle publishes a window, on a route whose nominal speeds
    are not negative, the k-th published point carries a target speed
    between 0 and the nominal speed of the route point of index
    [(next_wp + k) mod n], whichever pass shaped the window; the point is
    that route point up to its speed. *)
Theorem emitted_speeds_bounded self lane final self' :
  base_waypoints self = Some lane →
  Forall (λ wp, (0 <=? wp_speed wp)%float = true) (waypoints lane) →
  loop self = Ok (Some final, self') →
  let n := Z.of_nat (length (waypoints lane)) in
  ∃ ps next_wp,
    current_pose self = Some ps
    ∧ get_next_waypoint ps (waypoints lane) = Ok next_wp
    ∧ ∀ (k : nat) wp', final !! k = Some wp' →
        ∃ src, waypoints lane !! Z.to_nat ((next_wp + Z.of_nat k) `mod` n) = Some src
               ∧ reshaped src wp'
               ∧ (0 <=? wp_speed wp')%float = true
               ∧ (wp_speed wp' <=? wp_speed src)%float = true.
Proof.
  intros Hlane Hpos H n. subst n. apply loop_inv in H. rewrite Hlane in H.
  destruct (current_pose self) as [ps|]; [|by destruct H].
  destruct H as (next_wp & end_wp & b & final' & [= <-] & Hnext & Hfinal & _).
  exists ps, next_wp. split; [done|]. split; [done|].
  apply get_final_waypoints_inv in Hfinal as (raw & Hraw & HF & _).
  pose proof (get_next_waypoint_nonempty _ _ _ Hnext) as Hne.
  destruct (extract_ok (waypoints lane) next_wp end_wp Hne)
    as (raw' & Hraw' & _ & Hk).
  assert (raw' = raw) as -> by congruence.
  intros k wp' Hwp'.
  destruct (Forall2_lookup_r _ _ _ _ _ HF Hwp') as (src & Hsrc & Hre & Hb).
  exists src. destruct (Hk k (lookup_lt_Some _ _ _ Hsrc)) as [Heq _].
  rewrite <- Heq. split; [done|]. split; [done|].
  apply Hb. rewrite Heq in Hsrc. by eapply (Forall_lookup_1 _ _ _ _ Hpos).
Qed.

Lemma emitted_speeds_bounded_witness :
  ∃ final self',
    loop (node5 0 10 3 false) = Ok (Some final, self')
    ∧ ∃ ps next_wp,
        current_pose (node5 0 10 3 false) = Some ps
        ∧ get_next_waypoint ps route5 = Ok next_wp
        ∧ ∀ (k : nat) wp', final !! k = Some wp' →
            ∃ src, route5 !! Z.to_nat ((next_wp + Z.of_nat k) `mod` 5) = Some src
                   ∧ reshaped src wp'
                   ∧ (0 <=? wp_speed wp')%float = true
                   ∧ (wp_speed wp' <=? wp_speed src)%float = true.
Proof.
  eexists _, _. split; [vm_compute; reflexivity|].
  eapply (emitted_speeds_bounded (node5 0 10 3 false)
            {| lane_header := hdr0; waypoints := route5 |}).
  - reflexivity.
  - repeat constructor.
  - vm_compute. reflexivity.
Defined.

(** ** The lookahead window *)

(** The cycle up to the choice of the window, on a route that is not empty. *)
Lemma loop_prefix self lane ps :
  base_waypoints self = Some lane → current_pose self = Some ps →
  waypoints lane ≠ [] →
  ∃ next_wp,
    get_next_waypoint ps (waypoints lane) = Ok next_wp
    ∧ 0 ≤ next_wp < Z.of_nat (length (waypoints lane))
    ∧ loop self =
        (tl_wp ← py_index (waypoints lane) (traffic_waypoint self);
         tl_dist ← distance (position (ps_pose ps)) (wp_position tl_wp);
         v2 ← float_pow2 (current_velocity self);
         let min_stopping_dist := (v2 / (2 * MAX_DECEL) + STOP_BUFFER)%float in
         if traffic_waypoint self =? -1 then
           '(final, self) ← get_final_waypoints (set_braking self false)
                              (waypoints lane) next_wp (next_wp + LOOKAHEAD_WPS);
           Ok (Some final, self)
         else if negb (braking self) && (tl_dist <? min_stopping_dist)%float then
           '(final, self) ← get_final_waypoints self
                              (waypoints lane) next_wp (next_wp + LOOKAHEAD_WPS);
           Ok (Some final, self)
         else
           '(final, self) ← get_final_waypoints (set_braking self true)
                              (waypoints lane) next_wp (traffic_waypoint self);
           Ok (Some final, self)).
Proof.
  intros Hlane Hps Hne.
  destruct (get_next_waypoint_ok ps _ Hne) as (next_wp & Hnext & Hn).
  exists next_wp. split; [done|]. split; [done|].
  unfold loop. rewrite Hlane, Hps, Hnext. by bind_step.
Qed.

(** C2, as stated, fails: with no stop signal, on the route of five points
    with the vehicle at the first one, the cycle publishes 101 points, not
    100. *)
Lemma lookahead_window_has_101_points :
  ∃ final self',
    traffic_waypoint (node5 0 0 (-1) false) = -1
    ∧ loop (node5 0 0 (-1) false) = Ok (Some final, self')
    ∧ Z.of_nat (length final) = 101
    ∧ Z.of_nat (length final) ≠ LOOKAHEAD_WPS.
Proof.
  eexists _, _. split; [reflexivity|]. split; [vm_compute; reflexivity|].
  split; [reflexivity|]. discriminate.
Qed.

(** C2, amended: in a cycle with no stop signal (-1), a route that is not
    empty, a pose, and a current speed whose square does not overflow, the
    published window is the closed index range
    [next_wp, next_wp + LOOKAHEAD_WPS]: exactly LOOKAHEAD_WPS + 1 = 101
    points, the k-th being the route point of index [(next_wp + k) mod n]
    up to its target speed; the mode after the cycle is CRUISE. *)
Theorem lookahead_window self lane ps v2 :
  base_waypoints self = Some lane →
  current_pose self = Some ps →
  waypoints lane ≠ [] →
  traffic_waypoint self = -1 →
  float_pow2 (current_velocity self) = Ok v2 →
  let n := Z.of_nat (length (waypoints lane)) in
  ∃ next_wp final self',
    get_next_waypoint ps (waypoints lane) = Ok next_wp
    ∧ 0 ≤ next_wp < n
    ∧ loop self = Ok (Some final, self')
    ∧ braking self' = false
    ∧ Z.of_nat (length final) = LOOKAHEAD_WPS + 1
    ∧ ∀ k : nat, (k < length final)%nat →
        ∃ src wp, waypoints lane !! Z.to_nat ((next_wp + Z.of_nat k) `mod` n) = Some src
                  ∧ final !! k = Some wp
                  ∧ reshaped src wp.
Proof.
  intros Hlane Hps Hne Htw Hv2 n. subst n.
  destruct (loop_prefix self lane ps Hlane Hps Hne) as (next_wp & Hnext & Hn & Hloop).
  rewrite Htw in Hloop.
  destruct (py_index_minus_1 _ Hne) as (tl_wp & Htl & _).
  rewrite Htl in Hloop. bind_step in Hloop.
  destruct (distance_ok (position (ps_pose ps)) (wp_position tl_wp))
    as (tl_dist & Hd & _).
  rewrite Hd, Hv2 in Hloop. bind_step in Hloop.
  change (-1 =? -1) with true in Hloop. cbv iota in Hloop.
  destruct (extract_ok (waypoints lane) next_wp (next_wp + LOOKAHEAD_WPS) Hne)
    as (raw & Hraw & Hlen & Hk).
  destruct (Z.ltb_spec (next_wp + LOOKAHEAD_WPS) next_wp);
    [unfold LOOKAHEAD_WPS in *; lia|].
  destruct (accelerate_ok (set_braking self false) raw ps Hps)
    as (final & self' & Hacc).
  destruct (accelerate_inv _ _ _ _ Hacc) as [HF Hself'].
  unfold get_final_waypoints in Hloop. rewrite Hraw in Hloop.
  bind_step in Hloop. cbn [braking set_braking] in Hloop.
  rewrite Hacc in Hloop. bind_step in Hloop.
  exists next_wp, final, self'. split_and!; try done; try lia.
  - by rewrite Hself'.
  - rewrite <- (Forall2_length _ _ _ HF), Hlen. unfold LOOKAHEAD_WPS. lia.
  - intros k Hklt. rewrite <- (Forall2_length _ _ _ HF) in Hklt.
    destruct (Hk k Hklt) as [Heq [src Hsrc]].
    destruct (Forall2_lookup_l _ _ _ _ _ HF Hsrc) as (wp & Hwp & Hre & _).
    exists src, wp. by rewrite <- Heq.
Qed.

Lemma lookahead_window_witness :
  ∃ next_wp final self',
    get_next_waypoint (mk_pose 0 0) route5 = Ok next_wp
    ∧ 0 ≤ next_wp < 5
    ∧ loop (node5 0 0 (-1) false) = Ok (Some final, self')
    ∧ braking self' = false
    ∧ Z.of_nat (length final) = LOOKAHEAD_WPS + 1
    ∧ ∀ k : nat, (k < length final)%nat →
        ∃ src wp, route5 !! Z.to_nat ((next_wp + Z.of_nat k) `mod` 5) = Some src
                  ∧ final !! k = Some wp
                  ∧ reshaped src wp.
Proof.
  apply (lookahead_window (node5 0 0 (-1) false)
           {| lane_header := hdr0; waypoints := route5 |} (mk_pose 0 0) 0%float).
  - reflexivity.
  - reflexivity.
  - discriminate.
  - reflexivity.
  - reflexivity.
Defined.

(** ** Stop-signal indices outside the route *)

(** C1, as stated, fails: with five route points and the stop-signal index
    5, the cycle raises [IndexError]. *)
Lemma stop_index_5_of_5_raises :
  traffic_waypoint (node5 0 10 5 false) = 5
  ∧ length route5 = 5%nat
  ∧ loop (node5 0 10 5 false) = Raise IndexError.
Proof. split; [reflexivity|]. split; [reflexivity|]. vm_compute. reflexivity. Qed.

(** C1, amended: in a cycle with a route of [n ≥ 1] points and a pose, a
    stop-signal index outside [-n, n) is not clamped or rejected: the route
    access [wpts[traffic_wp]] is out of range and the cycle raises
    [IndexError], publishing nothing. *)
Theorem stop_index_out_of_range_raises self lane ps :
  base_waypoints self = Some lane →
  current_pose self = Some ps →
  waypoints lane ≠ [] →
  let n := Z.of_nat (length (waypoints lane)) in
  traffic_waypoint self < - n ∨ n ≤ traffic_waypoint self →
  loop self = Raise IndexError.
Proof.
  intros Hlane Hps Hne n Htw.
  destruct (loop_prefix self lane ps Hlane Hps Hne) as (next_wp & _ & _ & ->).
  by rewrite py_index_out_of_range.
Qed.

Lemma stop_index_out_of_range_raises_witness :
  loop (node5 0 10 (-6) true) = Raise IndexError.
Proof.
  apply (stop_index_out_of_range_raises (node5 0 10 (-6) true)
           {| lane_header := hdr0; waypoints := route5 |} (mk_pose 0 0)).
  - reflexivity.
  - reflexivity.
  - discriminate.
  - simpl. lia.
Defined.

(** ** The store *)

Lemma alloc_inv σ o l σ' :
  Store.alloc σ o = (l, σ') → σ !! l = None ∧ σ' = <[l := o]> σ.
Proof.
  unfold Store.alloc. intros [= <- <-]. split; [|done].
  apply not_elem_of_dom, is_fresh.
Qed.

Lemma get_pose_inv σ wp p :
  Store.get_pose σ wp = Ok p → ∃ t, σ !! wp = Some (Store.OWaypoint p t).
Proof.
  unfold Store.get_pose. destruct (σ !! wp) as [[]|]; intros [= <-]; eauto.
Qed.

Lemma get_twist_inv σ wp t :
  Store.get_twist σ wp = Ok t → ∃ p, σ !! wp = Some (Store.OWaypoint p t).
Proof.
  unfold Store.get_twist. destruct (σ !! wp) as [[]|]; intros [= <-]; eauto.
Qed.

Lemma read_pose_inv σ l v :
  Store.read_pose σ l = Ok v → σ !! l = Some (Store.OPoseStamped v).
Proof.
  unfold Store.read_pose. by destruct (σ !! l) as [[]|]; intros [= <-].
Qed.

Lemma read_twist_inv σ l v :
  Store.read_twist σ l = Ok v → σ !! l = Some (Store.OTwistStamped v).
Proof.
  unfold Store.read_twist. by destruct (σ !! l) as [[]|]; intros [= <-].
Qed.

Lemma set_pose_inv σ wp p σ' :
  Store.set_pose σ wp p = Ok σ' →
  ∃ p0 t, σ !! wp = Some (Store.OWaypoint p0 t)
          ∧ σ' = <[wp := Store.OWaypoint p t]> σ.
Proof.
  unfold Store.set_pose. destruct (σ !! wp) as [[]|]; intros [= <-]; eauto.
Qed.

Lemma set_twist_inv σ wp t σ' :
  Store.set_twist σ wp t = Ok σ' →
  ∃ p t0, σ !! wp = Some (Store.OWaypoint p t0)
          ∧ σ' = <[wp := Store.OWaypoint p t]> σ.
Proof.
  unfold Store.set_twist. destruct (σ !! wp) as [[]|]; intros [= <-]; eauto.
Qed.

Lemma deepcopy_inv σ l l' σ' :
  Store.deepcopy σ l = Ok (l', σ') →
  ∃ o, σ !! l = Some o ∧ σ !! l' = None ∧ σ' = <[l' := o]> σ.
Proof.
  unfold Store.deepcopy.
  destruct (σ !! l) as [[| |]|]; try done;
    intros H%Ok_inj; apply alloc_inv in H as [? ?]; eauto.
Qed.

Lemma new_waypoint_inv σ wp σ' :
  Store.new_waypoint σ = (wp, σ') →
  ∃ p t, σ ⊆ σ' ∧ σ !! wp = None
         ∧ σ' !! wp = Some (Store.OWaypoint p t).
Proof.
  unfold Store.new_waypoint.
  destruct (Store.alloc σ _) as [p σ1] eqn:H1.
  destruct (Store.alloc σ1 _) as [t σ2] eqn:H2.
  intros H3. apply alloc_inv in H1 as [Hp ->], H2 as [Ht ->], H3 as [Hwp ->].
  exists p, t. split_and!.
  - etrans; [by apply insert_subseteq|].
    etrans; [by apply insert_subseteq|]. by apply insert_subseteq.
  - apply lookup_insert_None in Hwp as [Hwp _].
    by apply lookup_insert_None in Hwp as [Hwp _].
  - apply lookup_insert_eq.
Qed.

(** *** Extraction allocates; the old objects stay as they are *)

Lemma copied_weaken σ0 σ1 σ σ' wp :
  σ0 ⊆ σ1 → σ ⊆ σ' → Store.copied σ1 σ wp → Store.copied σ0 σ' wp.
Proof.
  intros H01 Hσ (p & t & Hwp & H1 & H2 & H3). exists p, t.
  split; [by eapply lookup_weaken|].
  split_and!; by eapply lookup_weaken_None.
Qed.

Lemma store_copy_waypoints_frame σ wps idx out σ' :
  Store.copy_waypoints σ wps idx = Ok (out, σ') →
  σ ⊆ σ' ∧ Forall (Store.copied σ σ') out.
Proof.
  revert σ out σ'. induction idx as [|i idx IH]; intros σ out σ';
    cbn [Store.copy_waypoints].
  - by intros [= <- <-].
  - destruct (Store.new_waypoint σ) as [wp σ1] eqn:Hnew.
    apply new_waypoint_inv in Hnew as (p0 & t0 & Hσ1 & Hwp & Hwp1).
    intros H. apply bind_Ok in H as (index & _ & H).
    apply bind_Ok in H as (src & _ & H).
    apply bind_Ok in H as (src_pose & _ & H).
    apply bind_Ok in H as ([p σ2] & Hp & H).
    apply deepcopy_inv in Hp as (op & _ & Hp & ->).
    apply bind_Ok in H as (σ3 & Hσ3 & H).
    apply set_pose_inv in Hσ3 as (p0' & t0' & Hwp2 & ->).
    apply bind_Ok in H as (src' & _ & H).
    apply bind_Ok in H as (src_twist & _ & H).
    apply bind_Ok in H as ([t σ4] & Ht & H).
    apply deepcopy_inv in Ht as (ot & _ & Ht & ->).
    apply bind_Ok in H as (σ5 & Hσ5 & H).
    apply set_twist_inv in Hσ5 as (p' & t' & Hwp4 & ->).
    apply bind_Ok in H as ([rest σ6] & Hrest & [= <- <-]).
    apply IH in Hrest as [Hσ6 Hcopied].
    assert (p ≠ wp) as Hpwp by (intros ->; by rewrite Hwp1 in Hp).
    assert (t ≠ wp) as Htwp.
    { intros ->. by rewrite lookup_insert_eq in Ht. }
    assert (t ≠ p) as Htp.
    { intros ->. by rewrite lookup_insert_ne, lookup_insert_eq in Ht. }
    rewrite lookup_insert_ne, lookup_insert_eq in Hwp4 by done.
    injection Hwp4 as <- <-.
    assert (σ !! p = None) as Hp0 by (by eapply lookup_weaken_None).
    assert (σ !! t = None) as Ht0.
    { rewrite !lookup_insert_ne in Ht by done. by eapply lookup_weaken_None. }
    match type of Hσ6 with ?s ⊆ _ => set (σ5 := s) in * end.
    assert (σ ⊆ σ5) as Hσ5.
    { unfold σ5. repeat (apply insert_subseteq_r; [done|]). done. }
    split; [by etrans|]. constructor.
    + exists p, t. split; [|done].
      eapply lookup_weaken; [|done]. apply lookup_insert_eq.
    + eapply Forall_impl; [done|]. intros r. by apply copied_weaken.
Qed.

(** *** Shaping writes into the copies only *)

Lemma same_waypoints_refl σ : Store.same_waypoints σ σ.
Proof. by intros wp p t. Qed.

Lemma same_waypoints_trans σ1 σ2 σ3 :
  Store.same_waypoints σ1 σ2 → Store.same_waypoints σ2 σ3 →
  Store.same_waypoints σ1 σ3.
Proof. intros H12 H23 wp p t. etrans; [apply H12|apply H23]. Qed.

Lemma twist_outside_same_waypoints σ0 σ σ' wp :
  Store.same_waypoints σ σ' →
  Store.twist_outside σ0 σ wp → Store.twist_outside σ0 σ' wp.
Proof. intros Hs Hout p t Hwp. apply Hs in Hwp. by eapply Hout. Qed.

Lemma store_write_speed_frame σ0 σ wp x σ' :
  Store.write_speed σ wp x = Ok σ' →
  Store.same_waypoints σ σ'
  ∧ (σ0 ⊆ σ → Store.twist_outside σ0 σ wp → σ0 ⊆ σ').
Proof.
  unfold Store.write_speed. intros H.
  apply bind_Ok in H as (t & Ht & H). apply get_twist_inv in Ht as (p & Hwp).
  apply bind_Ok in H as (v & Hv & [= <-]). apply read_twist_inv in Hv.
  split.
  - intros wp' p' t'. destruct (decide (t = wp')) as [->|Hne].
    + rewrite lookup_insert_eq, Hv. split; intros [=].
    + by rewrite lookup_insert_ne.
  - intros Hσ Hout. apply insert_subseteq_r; [by eapply Hout|done].
Qed.

Lemma store_accelerate_loop_frame σ0 σ start wps σ' :
  Store.accelerate_loop σ start wps = Ok σ' →
  Store.same_waypoints σ σ'
  ∧ (σ0 ⊆ σ → Forall (Store.twist_outside σ0 σ) wps → σ0 ⊆ σ').
Proof.
  revert σ. induction wps as [|wp rest IH]; intros σ; cbn [Store.accelerate_loop].
  - intros [= <-]. split; [apply same_waypoints_refl|done].
  - intros H.
    apply bind_Ok in H as (pos & _ & H). apply bind_Ok in H as (dist & _ & H).
    apply bind_Ok in H as (vel & _ & H). apply bind_Ok in H as (x & _ & H).
    destruct (vel <? x)%float;
      [|injection H as <-; split; [apply same_waypoints_refl|done]].
    apply bind_Ok in H as (σ1 & Hσ1 & H).
    destruct (store_write_speed_frame σ0 _ _ _ _ Hσ1) as [Hs1 Hσ01].
    destruct (IH σ1 H) as [Hs Hσ']. split; [by eapply same_waypoints_trans|].
    intros Hσ [Hwp Hrest]%Forall_cons. apply Hσ'; [by apply Hσ01|].
    eapply Forall_impl; [done|]. intros wp'. by apply twist_outside_same_waypoints.
Qed.

Lemma store_decelerate_loop_frame σ0 σ last wps σ' :
  Store.decelerate_loop σ last wps = Ok σ' →
  Store.same_waypoints σ σ'
  ∧ (σ0 ⊆ σ → Forall (Store.twist_outside σ0 σ) wps → σ0 ⊆ σ').
Proof.
  revert σ. induction wps as [|wp rest IH]; intros σ; cbn [Store.decelerate_loop].
  - intros [= <-]. split; [apply same_waypoints_refl|done].
  - intros H.
    apply bind_Ok in H as (σ1 & Hσ1 & H). unfold Store.decelerate_body in Hσ1.
    apply bind_Ok in Hσ1 as (pos & _ & Hσ1).
    apply bind_Ok in Hσ1 as (last_pos & _ & Hσ1).
    apply bind_Ok in Hσ1 as (dist & _ & Hσ1).
    apply bind_Ok in Hσ1 as (vel & _ & Hσ1).
    apply bind_Ok in Hσ1 as (x & _ & Hσ1).
    destruct (store_write_speed_frame σ0 _ _ _ _ Hσ1) as [Hs1 Hσ01].
    destruct (IH σ1 H) as [Hs Hσ']. split; [by eapply same_waypoints_trans|].
    intros Hσ [Hwp Hrest]%Forall_cons. apply Hσ'; [by apply Hσ01|].
    eapply Forall_impl; [done|]. intros wp'. by apply twist_outside_same_waypoints.
Qed.

Lemma store_decelerate_frame σ0 σ wps σ' :
  Store.decelerate σ wps = Ok σ' →
  Store.same_waypoints σ σ'
  ∧ (σ0 ⊆ σ → Forall (Store.twist_outside σ0 σ) wps → σ0 ⊆ σ').
Proof.
  unfold Store.decelerate. intros H.
  apply bind_Ok in H as (last & Hlast & H).
  apply bind_Ok in H as (σ1 & Hσ1 & H).
  destruct (store_write_speed_frame σ0 _ _ _ _ Hσ1) as [Hs1 Hσ01].
  destruct (store_decelerate_loop_frame σ0 _ _ _ _ H) as [Hs Hσ'].
  split; [by eapply same_waypoints_trans|].
  intros Hσ Hout. apply Hσ'.
  - apply Hσ01; [done|]. apply py_index_inv in Hlast as [_ Hl].
    by eapply (Forall_lookup_1 _ _ _ _ Hout).
  - eapply Forall_impl; [done|]. intros wp'. by apply twist_outside_same_waypoints.
Qed.

Lemma store_accelerate_frame σ0 self σ wps self' σ' :
  Store.accelerate self σ wps = Ok (self', σ') →
  Store.same_waypoints σ σ'
  ∧ (σ0 ⊆ σ → Forall (Store.twist_outside σ0 σ) wps → σ0 ⊆ σ').
Proof.
  unfold Store.accelerate. intros H. apply bind_Ok in H as (s & _ & H).
  destruct (last_starting_point s) as [start|].
  - apply bind_Ok in H as (σ1 & Hσ1 & [= <- <-]).
    exact (store_accelerate_loop_frame σ0 _ _ _ _ Hσ1).
  - injection H as <- <-. split; [apply same_waypoints_refl|done].
Qed.

Lemma store_read_waypoints_weaken σ σ' wps vs :
  σ ⊆ σ' → Store.read_waypoints σ wps = Ok vs → Store.read_waypoints σ' wps = Ok vs.
Proof.
  intros Hσ. revert vs. induction wps as [|wp rest IH]; intros vs;
    cbn [Store.read_waypoints]; [done|].
  intros H. apply bind_Ok in H as (v & Hv & H).
  apply bind_Ok in H as (vs' & Hvs & [= <-]). rewrite (IH _ Hvs).
  unfold Store.read_waypoint in *.
  apply bind_Ok in Hv as (p & Hp & Hv). apply get_pose_inv in Hp as (t' & Hwp).
  apply bind_Ok in Hv as (pv & Hpv%read_pose_inv & Hv).
  apply bind_Ok in Hv as (t & Ht & Hv). apply get_twist_inv in Ht as (p' & Hwp').
  apply bind_Ok in Hv as (tv & Htv%read_twist_inv & [= <-]).
  unfold Store.get_pose, Store.get_twist, Store.read_pose, Store.read_twist.
  rewrite (lookup_weaken _ _ _ _ Hwp Hσ). bind_step.
  rewrite (lookup_weaken _ _ _ _ Hpv Hσ). bind_step.
  rewrite Hwp in Hwp'. injection Hwp' as <- <-.
  by rewrite (lookup_weaken _ _ _ _ Htv Hσ).
Qed.

(** C9: building and shaping a window leaves every object that existed
    before as it was, whatever the mode: each object of the store before
    the call is in the store after it, with the same contents, so that the
    route reads as before; and each point of the window is a new waypoint
    object, with a new pose message and a new twist message. *)
Theorem route_unchanged self σ wps start_wp end_wp final self' σ' :
  Store.get_final_waypoints self σ wps start_wp end_wp = Ok (final, self', σ') →
  (∀ l o, σ !! l = Some o → σ' !! l = Some o)
  ∧ (∀ vs, Store.read_waypoints σ wps = Ok vs → Store.read_waypoints σ' wps = Ok vs)
  ∧ Forall (Store.copied σ σ') final.
Proof.
  unfold Store.get_final_waypoints. intros H.
  apply bind_Ok in H as ([raw σ1] & Hcopy & H).
  apply store_copy_waypoints_frame in Hcopy as [Hσ1 Hcopied].
  assert (Forall (Store.twist_outside σ σ1) raw) as Hout.
  { eapply Forall_impl; [done|]. intros wp (p & t & Hwp & _ & _ & Ht) p' t' Hwp'.
    congruence. }
  assert (final = raw ∧ Store.same_waypoints σ1 σ' ∧ σ ⊆ σ') as (-> & Hs & Hσ').
  { destruct (braking self).
    - apply bind_Ok in H as (σ2 & Hdec & [= <- <- <-]).
      destruct (store_decelerate_frame σ _ _ _ Hdec) as [Hs Hσ2]. auto.
    - apply bind_Ok in H as ([s σ2] & Hacc & [= <- <- <-]).
      destruct (store_accelerate_frame σ _ _ _ _ _ Hacc) as [Hs Hσ2]. auto. }
  split; [intros l o Hl; by eapply lookup_weaken|].
  split; [intros vs; by apply store_read_waypoints_weaken|].
  eapply Forall_impl; [exact Hcopied|]. intros wp (p & t & Hwp & ?).
  exists p, t. split; [by apply Hs|done].
Qed.

(** ** The methods on values compute what the methods on the store do *)

Lemma repr_read σ w v : Store.repr σ w v → Store.read_waypoint σ w.1 = Ok v.
Proof.
  intros (p & Hw & Hp & Ht). unfold Store.read_waypoint, Store.get_pose,
    Store.get_twist, Store.read_pose, Store.read_twist.
  rewrite Hw. bind_step. rewrite Hp. bind_step. rewrite Ht. bind_step.
  by rewrite waypoint_eta.
Qed.

Lemma read_repr σ l v :
  Store.read_waypoint σ l = Ok v → ∃ t, Store.repr σ (l, t) v.
Proof.
  unfold Store.read_waypoint. intros H.
  apply bind_Ok in H as (p & Hp & H). apply get_pose_inv in Hp as (t' & Hwp).
  apply bind_Ok in H as (pv & Hpv%read_pose_inv & H).
  apply bind_Ok in H as (t & Ht & H). apply get_twist_inv in Ht as (p' & Hwp').
  apply bind_Ok in H as (tv & Htv%read_twist_inv & [= <-]).
  rewrite Hwp in Hwp'. injection Hwp' as <- <-. exists t', p. by split_and!.
Qed.

Lemma repr_position_of σ w v :
  Store.repr σ w v → Store.position_of σ w.1 = Ok (wp_position v).
Proof.
  intros (p & Hw & Hp & Ht). unfold Store.position_of, Store.get_pose,
    Store.read_pose.
  rewrite Hw. bind_step. by rewrite Hp.
Qed.

Lemma repr_speed_of σ w v :
  Store.repr σ w v → Store.speed_of σ w.1 = Ok (wp_speed v).
Proof.
  intros (p & Hw & Hp & Ht). unfold Store.speed_of, Store.get_twist,
    Store.read_twist.
  rewrite Hw. bind_step. by rewrite Ht.
Qed.

Lemma twists_written_refl T σ : Store.twists_written T σ σ.
Proof. intros l. by left. Qed.

Lemma twists_written_trans T1 T2 T σ1 σ2 σ3 :
  T1 ⊆ T → T2 ⊆ T →
  Store.twists_written T1 σ1 σ2 → Store.twists_written T2 σ2 σ3 →
  Store.twists_written T σ1 σ3.
Proof.
  intros HT1 HT2 H12 H23 l.
  destruct (H12 l) as [E12|(Hl1 & v & v' & Hv & Hv')],
    (H23 l) as [E23|(Hl2 & u & u' & Hu & Hu')].
  - left. congruence.
  - right. split; [by apply HT2|]. exists u, u'. split; congruence.
  - right. split; [by apply HT1|]. exists v, v'. split; congruence.
  - right. split; [by apply HT1|]. exists v, u'. split; congruence.
Qed.

Lemma repr_twists_written T σ σ' w v :
  Store.repr σ w v → Store.twists_written T σ σ' → w.2 ∉ T → Store.repr σ' w v.
Proof.
  intros (p & Hw & Hp & Ht) Hσ HT. exists p. split_and!.
  - destruct (Hσ w.1) as [->|(_ & ? & ? & ? & _)]; [done|congruence].
  - destruct (Hσ p) as [->|(_ & ? & ? & ? & _)]; [done|congruence].
  - destruct (Hσ w.2) as [->|(? & _)]; done.
Qed.

Lemma position_of_twists_written T σ σ' l pos :
  Store.position_of σ l = Ok pos → Store.twists_written T σ σ' →
  Store.position_of σ' l = Ok pos.
Proof.
  unfold Store.position_of. intros H Hσ.
  apply bind_Ok in H as (p & Hp & H). apply get_pose_inv in Hp as (t & Hl).
  apply bind_Ok in H as (pv & Hpv%read_pose_inv & [= <-]).
  unfold Store.get_pose, Store.read_pose.
  destruct (Hσ l) as [->|(_ & ? & ? & ? & _)]; [|congruence].
  rewrite Hl. bind_step.
  destruct (Hσ p) as [->|(_ & ? & ? & ? & _)]; [|congruence].
  by rewrite Hpv.
Qed.

Lemma repr_write_speed σ w v x :
  Store.repr σ w v →
  ∃ σ', Store.write_speed σ w.1 x = Ok σ'
        ∧ Store.repr σ' w (set_speed v x)
        ∧ Store.twists_written [w.2] σ σ'.
Proof.
  intros (p & Hw & Hp & Ht). unfold Store.write_speed, Store.get_twist,
    Store.read_twist.
  rewrite Hw. bind_step. rewrite Ht. bind_step. eexists. split; [done|]. split.
  - exists p. split_and!.
    + rewrite lookup_insert_ne; [done|]. intros E. congruence.
    + rewrite lookup_insert_ne; [done|]. intros E. congruence.
    + by rewrite lookup_insert_eq.
  - intros l. destruct (decide (w.2 = l)) as [<-|Hne].
    + right. split; [set_solver|]. eexists _, _. split; [done|].
      apply lookup_insert_eq.
    + left. by apply lookup_insert_ne.
Qed.

Lemma Forall2_repr_twists_written T σ σ' ws vs :
  Forall2 (Store.repr σ) ws vs → Store.twists_written T σ σ' →
  (∀ t, t ∈ ws.*2 → t ∉ T) → Forall2 (Store.repr σ') ws vs.
Proof.
  intros HF Hσ HT. induction HF as [|w v ws vs Hw HF IH]; constructor.
  - eapply repr_twists_written; [done..|]. apply HT. cbn. by left.
  - apply IH. intros t Ht. apply HT. cbn. by right.
Qed.

Lemma store_accelerate_loop_refines σ start ws vs vs' :
  Forall2 (Store.repr σ) ws vs → NoDup ws.*2 →
  accelerate_loop start vs = Ok vs' →
  ∃ σ', Store.accelerate_loop σ start ws.*1 = Ok σ'
        ∧ Forall2 (Store.repr σ') ws vs'
        ∧ Store.twists_written ws.*2 σ σ'.
Proof.
  revert σ vs vs'. induction ws as [|w ws IH]; intros σ vs vs' HF Hnd.
  - apply Forall2_nil_inv_l in HF as ->. intros [= <-].
    exists σ. split_and!; [done|done|apply twists_written_refl].
  - apply Forall2_cons_inv_l in HF as (v & vs0 & Hw & HF & ->).
    cbn [fmap list_fmap] in Hnd. apply NoDup_cons in Hnd as [Hnotin Hnd].
    cbn [accelerate_loop Store.accelerate_loop fmap list_fmap]. intros H.
    apply bind_Ok in H as (d & Hd & H). apply bind_Ok in H as (vel & Hvel & H).
    rewrite (repr_position_of _ _ _ Hw). bind_step. rewrite Hd. bind_step.
    rewrite Hvel. bind_step. rewrite (repr_speed_of _ _ _ Hw). bind_step.
    destruct (vel <? wp_speed v)%float.
    + apply bind_Ok in H as (rest' & Hrest & [= <-]).
      destruct (repr_write_speed σ w v vel Hw) as (σ1 & -> & Hw1 & Hσ1). bind_step.
      destruct (IH σ1 vs0 rest') as (σ' & -> & HF' & Hσ'); [|done|done|].
      { eapply Forall2_repr_twists_written; [done..|].
        intros t Ht ->%list_elem_of_singleton. done. }
      exists σ'. split; [done|]. split.
      * constructor; [|done]. by eapply repr_twists_written.
      * eapply twists_written_trans; [| |done..].
        -- intros t ->%list_elem_of_singleton. by left.
        -- intros t Ht. by right.
    + injection H as <-. exists σ. split; [done|]. split; [by constructor|].
      apply twists_written_refl.
Qed.

Lemma store_decelerate_loop_refines σ last last_pos ws vs vs' :
  Forall2 (Store.repr σ) ws vs → NoDup ws.*2 →
  Store.position_of σ last = Ok last_pos →
  decelerate_loop last_pos vs = Ok vs' →
  ∃ σ', Store.decelerate_loop σ last ws.*1 = Ok σ'
        ∧ Forall2 (Store.repr σ') ws vs'
        ∧ Store.twists_written ws.*2 σ σ'.
Proof.
  revert σ vs vs'. induction ws as [|w ws IH]; intros σ vs vs' HF Hnd Hlast.
  - apply Forall2_nil_inv_l in HF as ->. intros [= <-].
    exists σ. split_and!; [done|done|apply twists_written_refl].
  - apply Forall2_cons_inv_l in HF as (v & vs0 & Hw & HF & ->).
    cbn [fmap list_fmap] in Hnd. apply NoDup_cons in Hnd as [Hnotin Hnd].
    cbn [decelerate_loop Store.decelerate_loop fmap list_fmap]. intros H.
    apply bind_Ok in H as (v' & Hv' & H).
    apply bind_Ok in H as (rest' & Hrest & [= <-]).
    unfold decelerate_body in Hv'.
    apply bind_Ok in Hv' as (d & Hd & Hv').
    apply bind_Ok in Hv' as (vel & Hvel & [= <-]).
    unfold Store.decelerate_body.
    rewrite (repr_position_of _ _ _ Hw). bind_step. rewrite Hlast. bind_step.
    rewrite Hd. bind_step. rewrite Hvel. bind_step.
    rewrite (repr_speed_of _ _ _ Hw). bind_step.
    destruct (repr_write_speed σ w v (py_min vel (wp_speed v)) Hw)
      as (σ1 & -> & Hw1 & Hσ1). bind_step.
    destruct (IH σ1 vs0 rest') as (σ' & -> & HF' & Hσ'); [|done| |done|].
    { eapply Forall2_repr_twists_written; [done..|].
      intros t Ht ->%list_elem_of_singleton. done. }
    { by eapply position_of_twists_written. }
    exists σ'. split; [done|]. split.
    + constructor; [|done]. by eapply repr_twists_written.
    + eapply twists_written_trans; [| |done..].
      * intros t ->%list_elem_of_singleton. by left.
      * intros t Ht. by right.
Qed.

Lemma decelerate_unfold_snoc front lst :
  decelerate (front ++ [lst]) =
  decelerate_loop (wp_position lst) (front ++ [set_speed lst 0]).
Proof.
  unfold decelerate. rewrite length_app. cbn [length].
  replace (Z.of_nat (length front + 1) - 1) with (Z.of_nat (length front)) by lia.
  destruct (py_index_Ok (front ++ [lst]) (Z.of_nat (length front)))
    as (a & -> & Ha); [rewrite length_app; simpl; lia|].
  rewrite Nat2Z.id in *. rewrite list_lookup_middle in Ha by done.
  injection Ha as <-. bind_step.
  by rewrite insert_app_r_alt, Nat.sub_diag by done.
Qed.

Lemma decelerate_total wps : wps ≠ [] → ∃ out, decelerate wps = Ok out.
Proof.
  intros (front & lst & ->)%snoc_inv. rewrite decelerate_unfold_snoc.
  destruct (decelerate_loop_ok (wp_position lst) (front ++ [set_speed lst 0]))
    as (out & Hout & _). eauto.
Qed.

Lemma store_decelerate_refines σ ws vs :
  Forall2 (Store.repr σ) ws vs → NoDup ws.*2 →
  match decelerate vs with
  | Ok vs' => ∃ σ', Store.decelerate σ ws.*1 = Ok σ' ∧ Forall2 (Store.repr σ') ws vs'
  | Raise e => Store.decelerate σ ws.*1 = Raise e
  end.
Proof.
  intros HF Hnd. destruct ws as [|lw front _] using rev_ind.
  { by apply Forall2_nil_inv_l in HF as ->. }
  apply Forall2_app_inv_l in HF as (vfront & vlast & HFf & HFl & ->).
  apply Forall2_cons_inv_l in HFl as (lv & ? & Hlw & ->%Forall2_nil_inv_l & ->).
  rewrite fmap_app in Hnd. apply NoDup_app in Hnd as (Hndf & Hsep & _).
  rewrite decelerate_unfold_snoc.
  destruct (decelerate_loop_ok (wp_position lv) (vfront ++ [set_speed lv 0]))
    as (out & Hout & _).
  rewrite Hout. unfold Store.decelerate.
  rewrite fmap_app, length_app. cbn [length fmap list_fmap].
  replace (Z.of_nat (length front.*1 + 1) - 1)
    with (Z.of_nat (length front.*1)) by lia.
  destruct (py_index_Ok (front.*1 ++ [lw.1]) (Z.of_nat (length front.*1)))
    as (a & -> & Ha); [rewrite length_app; simpl; lia|].
  rewrite Nat2Z.id in Ha. rewrite list_lookup_middle in Ha by done.
  injection Ha as <-. bind_step.
  destruct (repr_write_speed σ lw lv 0 Hlw) as (σ1 & -> & Hlw1 & Hσ1). bind_step.
  destruct (store_decelerate_loop_refines σ1 lw.1 (wp_position lv)
              (front ++ [lw]) (vfront ++ [set_speed lv 0]) out)
    as (σ' & Hσ' & HF' & _).
  - apply Forall2_app; [|by constructor].
    eapply Forall2_repr_twists_written; [done..|].
    intros t Ht ->%list_elem_of_singleton. apply (Hsep _ Ht). by left.
  - rewrite fmap_app. apply NoDup_app. split_and!; [done|done|].
    apply NoDup_singleton.
  - by rewrite (repr_position_of _ _ _ Hlw1).
  - done.
  - rewrite fmap_app in Hσ'. eauto.
Qed.

Lemma py_index_fmap {A B} (f : A → B) (l : list A) (i : Z) :
  py_index (f <$> l) i =
  match py_index l i with Ok a => Ok (f a) | Raise e => Raise e end.
Proof.
  unfold py_index. rewrite length_fmap, list_lookup_fmap.
  destruct (_ && _); [|done]. by destruct (l !! _).
Qed.

Lemma py_index_Forall2 {A B} (R : A → B → Prop) l k i :
  Forall2 R l k →
  match py_index l i, py_index k i with
  | Ok a, Ok b => R a b
  | Raise e, Raise e' => e = e'
  | _, _ => False
  end.
Proof.
  intros HF. unfold py_index. rewrite <- (Forall2_length _ _ _ HF).
  set (j := Z.to_nat (if i <? 0 then i + Z.of_nat (length l) else i)).
  destruct (_ && _); [|done].
  destruct (l !! j) as [a|] eqn:Ha.
  - destruct (Forall2_lookup_l _ _ _ _ _ HF Ha) as (b & Hb & Hab).
    by rewrite Hb.
  - apply lookup_ge_None in Ha. rewrite (Forall2_length _ _ _ HF) in Ha.
    apply lookup_ge_None in Ha. by rewrite Ha.
Qed.

Lemma repr_weaken σ σ' w v : σ ⊆ σ' → Store.repr σ w v → Store.repr σ' w v.
Proof.
  intros Hσ (p & Hw & Hp & Ht). exists p. split_and!; by eapply lookup_weaken.
Qed.

Lemma Forall2_repr_weaken σ σ' ws vs :
  σ ⊆ σ' → Forall2 (Store.repr σ) ws vs → Forall2 (Store.repr σ') ws vs.
Proof.
  intros Hσ HF. eapply Forall2_impl; [done|]. intros w v. by apply repr_weaken.
Qed.

Lemma get_pose_lookup σ wp p t :
  σ !! wp = Some (Store.OWaypoint p t) → Store.get_pose σ wp = Ok p.
Proof. unfold Store.get_pose. by intros ->. Qed.

Lemma get_twist_lookup σ wp p t :
  σ !! wp = Some (Store.OWaypoint p t) → Store.get_twist σ wp = Ok t.
Proof. unfold Store.get_twist. by intros ->. Qed.

Lemma set_pose_lookup σ wp p p0 t :
  σ !! wp = Some (Store.OWaypoint p0 t) →
  Store.set_pose σ wp p = Ok (<[wp := Store.OWaypoint p t]> σ).
Proof. unfold Store.set_pose. by intros ->. Qed.

Lemma set_twist_lookup σ wp t p t0 :
  σ !! wp = Some (Store.OWaypoint p t0) →
  Store.set_twist σ wp t = Ok (<[wp := Store.OWaypoint p t]> σ).
Proof. unfold Store.set_twist. by intros ->. Qed.

Lemma deepcopy_pose σ l v :
  σ !! l = Some (Store.OPoseStamped v) →
  Store.deepcopy σ l
  = Ok (fresh (dom σ), <[fresh (dom σ) := Store.OPoseStamped v]> σ).
Proof. unfold Store.deepcopy. by intros ->. Qed.

Lemma deepcopy_twist σ l v :
  σ !! l = Some (Store.OTwistStamped v) →
  Store.deepcopy σ l
  = Ok (fresh (dom σ), <[fresh (dom σ) := Store.OTwistStamped v]> σ).
Proof. unfold Store.deepcopy. by intros ->. Qed.

Lemma fresh_lookup (σ : gmap Store.loc Store.obj) : σ !! fresh (dom σ) = None.
Proof. apply not_elem_of_dom, is_fresh. Qed.

Lemma store_copy_waypoints_refines σ rws rvs idx :
  Forall2 (Store.repr σ) rws rvs →
  match copy_waypoints rvs idx with
  | Ok out =>
      ∃ ws σ', Store.copy_waypoints σ rws.*1 idx = Ok (ws.*1, σ')
               ∧ σ ⊆ σ'
               ∧ Forall2 (Store.repr σ') ws out
               ∧ NoDup ws.*2
               ∧ Forall (λ t, σ !! t = None) ws.*2
  | Raise e => Store.copy_waypoints σ rws.*1 idx = Raise e
  end.
Proof.
  revert σ. induction idx as [|i idx IH]; intros σ HF;
    cbn [copy_waypoints Store.copy_waypoints].
  - exists [], σ. split_and!; [done|done|constructor|constructor|constructor].
  - destruct (Store.new_waypoint σ) as [wp σ1] eqn:Hnew.
    apply new_waypoint_inv in Hnew as (p0 & t0 & Hσ1 & Hwp & Hwp1).
    rewrite length_fmap, (Forall2_length _ _ _ HF).
    destruct (py_mod i (Z.of_nat (length rvs))) as [index|e]; bind_step; [|done].
    pose proof (py_index_Forall2 _ rws rvs index HF) as Hidx.
    rewrite py_index_fmap.
    destruct (py_index rws index) as [srcw|e], (py_index rvs index) as [srcv|e'];
      try done; bind_step; [|by subst].
    destruct Hidx as (ps & Hsw & Hsp & Hst).
    (* wp.pose = copy.deepcopy(waypoints[index].pose) *)
    rewrite (get_pose_lookup σ1 _ ps srcw.2) by (by eapply lookup_weaken).
    bind_step.
    rewrite (deepcopy_pose σ1 ps (pose srcv)) by (by eapply lookup_weaken).
    bind_step. pose proof (fresh_lookup σ1) as Hp. set (p := fresh (dom σ1)) in *.
    assert (p ≠ wp) as Hpwp by (intros E; rewrite E in Hp; congruence).
    rewrite (set_pose_lookup _ wp p p0 t0) by (by rewrite lookup_insert_ne).
    bind_step.
    set (σ3 := <[wp:=Store.OWaypoint p t0]> (<[p:=Store.OPoseStamped (pose srcv)]> σ1)).
    assert (σ ⊆ σ3) as Hσ3.
    { unfold σ3. apply insert_subseteq_r; [done|].
      apply insert_subseteq_r; [by eapply lookup_weaken_None|done]. }
    (* wp.twist = copy.deepcopy(waypoints[index].twist) *)
    rewrite (get_twist_lookup σ3 _ ps srcw.2) by (by eapply lookup_weaken).
    bind_step.
    rewrite (deepcopy_twist σ3 srcw.2 (twist srcv)) by (by eapply lookup_weaken).
    bind_step. pose proof (fresh_lookup σ3) as Ht. set (t := fresh (dom σ3)) in *.
    assert (t ≠ wp) as Htwp.
    { intros E. rewrite E in Ht. unfold σ3 in Ht. by rewrite lookup_insert_eq in Ht. }
    assert (t ≠ p) as Htp.
    { intros E. rewrite E in Ht. unfold σ3 in Ht.
      by rewrite lookup_insert_ne, lookup_insert_eq in Ht. }
    rewrite (set_twist_lookup _ wp t p t0)
      by (rewrite lookup_insert_ne by done; apply lookup_insert_eq).
    bind_step.
    set (σ5 := <[wp:=Store.OWaypoint p t]> (<[t:=Store.OTwistStamped (twist srcv)]> σ3)).
    assert (σ ⊆ σ5) as Hσ5.
    { unfold σ5. apply insert_subseteq_r; [done|].
      apply insert_subseteq_r; [by eapply lookup_weaken_None|done]. }
    specialize (IH σ5 (Forall2_repr_weaken _ _ _ _ Hσ5 HF)).
    destruct (copy_waypoints rvs idx) as [rest|e]; bind_step; [|by rewrite IH].
    destruct IH as (ws & σ' & -> & Hσ' & HF' & Hnd & Hnone). bind_step.
    exists ((wp, t) :: ws), σ'. split; [done|]. split; [by etrans|].
    split; [|split].
    + constructor; [|done]. exists p. cbn [fst snd pose twist].
      split_and!; (eapply lookup_weaken; [|exact Hσ']); unfold σ5, σ3.
      * apply lookup_insert_eq.
      * rewrite !lookup_insert_ne by done. apply lookup_insert_eq.
      * rewrite lookup_insert_ne by done. apply lookup_insert_eq.
    + cbn [fmap list_fmap snd]. apply NoDup_cons. split; [|done].
      intros Hin. apply (proj1 (Forall_forall _ _) Hnone) in Hin.
      cbv beta in Hin. unfold σ5 in Hin.
      rewrite lookup_insert_ne in Hin by done.
      by rewrite lookup_insert_eq in Hin.
    + cbn [fmap list_fmap snd]. constructor.
      * by eapply lookup_weaken_None.
      * eapply Forall_impl; [exact Hnone|]. intros t' Ht'.
        exact (lookup_weaken_None _ _ _ Ht' Hσ5).
Qed.

Lemma read_waypoints_repr σ ls vs :
  Store.read_waypoints σ ls = Ok vs →
  ∃ ws, ws.*1 = ls ∧ Forall2 (Store.repr σ) ws vs.
Proof.
  revert vs. induction ls as [|l ls IH]; intros vs; cbn [Store.read_waypoints].
  - intros [= <-]. exists []. by split.
  - intros H. apply bind_Ok in H as (v & Hv & H).
    apply bind_Ok in H as (vs' & Hvs & [= <-]).
    apply read_repr in Hv as (t & Hv). destruct (IH _ Hvs) as (ws & <- & HF).
    exists ((l, t) :: ws). split; [done|]. by constructor.
Qed.

Lemma repr_read_waypoints σ ws vs :
  Forall2 (Store.repr σ) ws vs → Store.read_waypoints σ ws.*1 = Ok vs.
Proof.
  induction 1 as [|w v ws vs Hw HF IH]; cbn [Store.read_waypoints fmap list_fmap];
    [done|].
  rewrite (repr_read _ _ _ Hw). bind_step. by rewrite IH.
Qed.

(** X18: the methods on values and the methods on the store agree: from a store
    in which the route reads as [rvs], [Store.get_final_waypoints] raises
    what [get_final_waypoints] raises on [rvs] and otherwise returns
    references that read as the window it returns, with the same node. *)
Theorem store_get_final_waypoints_refines self σ route rvs start_wp end_wp :
  Store.read_waypoints σ route = Ok rvs →
  match get_final_waypoints self rvs start_wp end_wp with
  | Ok (final_v, self') =>
      ∃ final σ',
        Store.get_final_waypoints self σ route start_wp end_wp
        = Ok (final, self', σ')
        ∧ Store.read_waypoints σ' final = Ok final_v
  | Raise e =>
      Store.get_final_waypoints self σ route start_wp end_wp = Raise e
  end.
Proof.
  intros (rws & <- & HF)%read_waypoints_repr.
  unfold get_final_waypoints, Store.get_final_waypoints, extract.
  rewrite length_fmap, (Forall2_length _ _ _ HF).
  match goal with |- context [py_range ?a ?b] =>
    pose proof (store_copy_waypoints_refines σ rws rvs (py_range a b) HF) as Hc;
    destruct (copy_waypoints rvs (py_range a b)) as [raw|e] end;
    bind_step; [|by rewrite Hc].
  destruct Hc as (ws & σ1 & -> & Hσ1 & HFw & Hnd & _). bind_step.
  destruct (braking self).
  - pose proof (store_decelerate_refines σ1 ws raw HFw Hnd) as Hd.
    destruct (decelerate raw) as [out|e]; bind_step; [|by rewrite Hd].
    destruct Hd as (σ' & -> & HF'). bind_step.
    eexists _, _. split; [done|]. by apply repr_read_waypoints.
  - unfold accelerate, Store.accelerate.
    destruct (if (current_velocity self <=? standstill)%float then _ else _)
      as [s|e]; bind_step; [|done].
    destruct (last_starting_point s) as [start|].
    + destruct (accelerate_loop_ok start raw) as (out & Hout & _).
      rewrite Hout. bind_step.
      destruct (store_accelerate_loop_refines σ1 start ws raw out HFw Hnd Hout)
        as (σ' & -> & HF' & _). bind_step.
      eexists _, _. split; [done|]. by apply repr_read_waypoints.
    + eexists _, _. split; [done|]. by apply repr_read_waypoints.
Qed.

Lemma route_unchanged_witness :
  ∃ final self' σ',
    Store.get_final_waypoints (node5 0 10 3 true)
      (Store.store_of route5).2 (Store.store_of route5).1 1 3
    = Ok (final, self', σ')
    ∧ (∀ l o, (Store.store_of route5).2 !! l = Some o → σ' !! l = Some o)
    ∧ (∀ vs, Store.read_waypoints (Store.store_of route5).2 (Store.store_of route5).1 = Ok vs →
             Store.read_waypoints σ' (Store.store_of route5).1 = Ok vs)
    ∧ Forall (Store.copied (Store.store_of route5).2 σ') final.
Proof.
  eexists _, _, _. split; [vm_compute; reflexivity|].
  eapply (route_unchanged (node5 0 10 3 true)
            (Store.store_of route5).2 (Store.store_of route5).1 1 3).
  vm_compute. reflexivity.
Defined.

(** * Scenarios

    The route has five points on a line, ten units apart, with nominal speed
    11; [node5 x v tw br] is the node with the vehicle at abscissa [x], the
    current speed [v], the stop-signal index [tw] and the mode [br]. *)

(** No stop signal, vehicle at rest at the first point: 101 points from
    index 1 on, the last one at the point of index 1 again, with the speed
    of the ramp after 10 units (the square root of 20); CRUISE. *)
Example scenario_no_signal :
  summary (loop (node5 0 0 (-1) false))
  = Ok (Some (101%nat, Some (PrimFloat.sqrt 20)), false).
Proof. vm_compute. reflexivity. Qed.

(** Stop signal at point 3, speed 10, 30 units away (at least 10²/8 + 2.5 =
    15): BRAKING, window [1..3], last speed 0. *)
Example scenario_brake :
  summary (loop (node5 0 10 3 false)) = Ok (Some (3%nat, Some 0%float), true).
Proof. vm_compute. reflexivity. Qed.

(** The same 5 units away, in CRUISE: too close to brake, the full window,
    CRUISE. *)
Example scenario_too_close :
  summary (loop (node5 25 10 3 false)) = Ok (Some (101%nat, Some 11%float), false).
Proof. vm_compute. reflexivity. Qed.

(** The same 5 units away, once BRAKING: the mode stays. *)
Example scenario_hysteresis :
  summary (loop (node5 25 10 3 true)) = Ok (Some (1%nat, Some 0%float), true).
Proof. vm_compute. reflexivity. Qed.

(** Stop signal at point 1, behind the vehicle near the end of the route: the
    window wraps, [4, 0, 1]. *)
Example scenario_wrap :
  summary (loop (node5 35 0 1 false)) = Ok (Some (3%nat, Some 0%float), true).
Proof. vm_compute. reflexivity. Qed.

(** Before the first messages nothing is published. *)
Example scenario_not_ready : summary (loop init) = Ok (None, false).
Proof. reflexivity. Qed.

(** A negative stop-signal index other than -1 counts from the end of the
    route; here the window from 4 to -2 + 5 = 3 is empty and [decelerate]
    raises. *)
Example scenario_index_minus_2 :
  loop (node5 35 0 (-2) false) = Raise IndexError.
Proof. vm_compute. reflexivity. Qed.

(** A current speed whose square is out of range. *)
Example scenario_overflow :
  loop (node5 0 0x1p+700 (-1) false) = Raise OverflowError.
Proof. vm_compute. reflexivity. Qed.

(** On the store and on values the braking window is the same. *)
Example scenario_store :
  (let '(route, σ) := Store.store_of route5 in
   match Store.get_final_waypoints (node5 0 10 3 true) σ route 1 3 with
   | Ok (final, _, σ') => Store.read_waypoints σ' final
   | Raise e => Raise e
   end)
  = match get_final_waypoints (node5 0 10 3 true) route5 1 3 with
    | Ok (final, _) => Ok final
    | Raise e => Raise e
    end.
Proof. vm_compute. reflexivity. Qed.

(** * Further properties *)

(** ** Binary64 arithmetic: symmetry and finite numbers *)







Lemma is_finite_spec x : is_finite x = true → sf_finite (Prim2SF x) = true.
Proof.
  unfold is_finite, is_nan, is_infinity.
  rewrite !FloatAxioms.eqb_spec, abs_spec, Prim2SF_infinity.
  destruct (Prim2SF x) as [s|[]| |s m e]; simpl; try done.
Qed.

Lemma SFsub_diag_finite x :
  sf_finite x = true → SFsub prec emax x x = S754_zero false.
Proof.
  destruct x as [[]|[]| |s m e]; simpl; try done. intros _.
  by rewrite Z.sub_diag.
Qed.

Lemma sub_diag_finite x : is_finite x = true → (x - x)%float = 0%float.
Proof.
  intros H%is_finite_spec. apply Prim2SF_inj.
  by rewrite sub_spec, Prim2SF_0; apply SFsub_diag_finite.
Qed.

(** ** Distances *)

(** X1: [distance] never raises ([math.sqrt] never gets a negative sum of
    squares, whatever the coordinates, infinite or not a number included)
    and what it returns is never negative. *)
Theorem distance_returns_nonnegative p1 p2 :
  ∃ d, distance p1 p2 = Ok d ∧ (d <? 0)%float = false.
Proof.
  destruct (distance_ok p1 p2) as (d & Hd & Hnn). exists d. split; [done|].
  by rewrite ltb_spec, Prim2SF_0, SFltb_zero_r.
Qed.


(** X3: the distance of a point with finite coordinates to itself is exactly
    0. *)
Theorem distance_to_itself p :
  is_finite (p_x p) = true → is_finite (p_y p) = true → is_finite (p_z p) = true →
  distance p p = Ok 0%float.
Proof.
  intros Hx Hy Hz. unfold distance.
  by rewrite (sub_diag_finite _ Hx), (sub_diag_finite _ Hy), (sub_diag_finite _ Hz).
Qed.

Lemma distance_to_itself_witness :
  distance (wp_position (mk_wp 30 0 11)) (wp_position (mk_wp 30 0 11)) = Ok 0%float.
Proof.
  apply (distance_to_itself (wp_position (mk_wp 30 0 11))); reflexivity.
Defined.

(** ** The exceptions of the shaping passes *)

(** X4: [decelerate] raises exactly on the empty window, and then
    [IndexError] (from [waypoints[len(waypoints) - 1]]); on any other window
    it returns. *)
Theorem decelerate_raises_iff wps e :
  decelerate wps = Raise e ↔ wps = [] ∧ e = IndexError.
Proof.
  split.
  - destruct wps as [|wp wps]; [by intros [= <-]|].
    destruct (decelerate_total (wp :: wps)) as (out & ->); done.
  - by intros [-> ->].
Qed.

(** X5: [accelerate] raises exactly when the node has no pose yet while the
    current speed is at most 0.0001, and then [AttributeError] (from
    [self.current_pose]); the ramp itself never raises. *)
Theorem accelerate_raises_iff self wps e :
  accelerate self wps = Raise e ↔
  e = AttributeError ∧ current_pose self = None
  ∧ (current_velocity self <=? standstill)%float = true.
Proof.
  unfold accelerate. split.
  - destruct (current_velocity self <=? standstill)%float.
    + destruct (current_pose self) as [ps|]; [|by intros [= <-]]. bind_step.
      cbn [last_starting_point set_last_starting_point].
      by destruct (accelerate_loop_ok (position (ps_pose ps)) wps) as (out & -> & _).
    + bind_step. destruct (last_starting_point self) as [start|]; [|done].
      by destruct (accelerate_loop_ok start wps) as (out & -> & _).
  - by intros (-> & -> & ->).
Qed.

(** ** The acceleration ramp *)

Lemma accelerate_loop_prefix start wps out :
  accelerate_loop start wps = Ok out →
  ∃ k : nat,
    (k ≤ length wps)%nat
    ∧ length out = length wps
    ∧ drop k out = drop k wps
    ∧ (∀ (i : nat) wp, (i < k)%nat → wps !! i = Some wp →
         ∃ d v, distance start (wp_position wp) = Ok d
                ∧ math_sqrt (2 * accel * d)%float = Ok v
                ∧ (v <? wp_speed wp)%float = true
                ∧ out !! i = Some (set_speed wp v))
    ∧ (∀ wp, wps !! k = Some wp →
         ∃ d v, distance start (wp_position wp) = Ok d
                ∧ math_sqrt (2 * accel * d)%float = Ok v
                ∧ (v <? wp_speed wp)%float = false).
Proof.
  revert out. induction wps as [|wp rest IH]; intros out; cbn [accelerate_loop].
  - intros [= <-]. exists 0%nat. split_and!; try done; intros; lia.
  - intros H. apply bind_Ok in H as (d & Hd & H).
    apply bind_Ok in H as (v & Hv & H).
    destruct (v <? wp_speed wp)%float eqn:E.
    + apply bind_Ok in H as (rest' & Hrest & [= <-]).
      destruct (IH _ Hrest) as (k & Hk & Hlen & Hdrop & Hpre & Hat).
      exists (S k). cbn [length drop]. split_and!; [lia|by rewrite Hlen|done| |done].
      intros [|i] wp' Hi Hwp'; simpl in Hwp'.
      * injection Hwp' as <-. by exists d, v.
      * apply Hpre; [lia|done].
    + injection H as <-. exists 0%nat. split_and!; [simpl; lia|done|done| |].
      * intros i wp' Hi. lia.
      * intros wp' [= <-]. by exists d, v.
Qed.

(** X6: [accelerate] rewrites a prefix of the window only.  The starting
    point of the ramp is the current position when the current speed is at
    most 0.0001, and the one kept from earlier cycles otherwise; without one
    the window is returned as it is.  With one, there is an index [k] such
    that every point before [k] had a speed above the ramp and gets the ramp
    speed, the point at [k] (if any) does not exceed the ramp, and the
    points from [k] on are left as they are, whatever the ramp says there. *)
Theorem accelerate_clamps_a_prefix self wps out self' :
  accelerate self wps = Ok (out, self') →
  last_starting_point self' =
    (if (current_velocity self <=? standstill)%float
     then (λ ps, position (ps_pose ps)) <$> current_pose self
     else last_starting_point self)
  ∧ match last_starting_point self' with
    | None => out = wps
    | Some start =>
        ∃ k : nat,
          (k ≤ length wps)%nat
          ∧ length out = length wps
          ∧ drop k out = drop k wps
          ∧ (∀ (i : nat) wp, (i < k)%nat → wps !! i = Some wp →
               ∃ d v, distance start (wp_position wp) = Ok d
                      ∧ math_sqrt (2 * accel * d)%float = Ok v
                      ∧ (v <? wp_speed wp)%float = true
                      ∧ out !! i = Some (set_speed wp v))
          ∧ (∀ wp, wps !! k = Some wp →
               ∃ d v, distance start (wp_position wp) = Ok d
                      ∧ math_sqrt (2 * accel * d)%float = Ok v
                      ∧ (v <? wp_speed wp)%float = false)
    end.
Proof.
  unfold accelerate. intros H. apply bind_Ok in H as (s & Hs & H).
  assert (last_starting_point s =
            (if (current_velocity self <=? standstill)%float
             then (λ ps, position (ps_pose ps)) <$> current_pose self
             else last_starting_point self)) as Hstart.
  { destruct (_ <=? _)%float; [|by injection Hs as <-].
    destruct (current_pose self); [|done]. by injection Hs as <-. }
  destruct (last_starting_point s) as [start|] eqn:E.
  - apply bind_Ok in H as (out' & Hout & [= <- <-]). rewrite E.
    split; [done|]. by apply accelerate_loop_prefix.
  - injection H as <- <-. by rewrite E.
Qed.

Lemma accelerate_clamps_a_prefix_witness :
  last_starting_point
    (set_last_starting_point (node5 0 0 (-1) false)
       (Some (wp_position (mk_wp 0 0 5))))
  = Some (position (ps_pose (mk_pose 0 0))).
Proof.
  refine (proj1 (accelerate_clamps_a_prefix (node5 0 0 (-1) false)
                   [mk_wp 10 0 5; mk_wp 20 0 5; mk_wp 0 0 5]
                   [set_speed (mk_wp 10 0 5) (PrimFloat.sqrt 20);
                    mk_wp 20 0 5; mk_wp 0 0 5]
                   _ _)).
  vm_compute. reflexivity.
Defined.

(** ** Windows over any range *)

(** X7: on a route that is not empty, the extraction loop of
    [get_final_waypoints] accepts any two integers, negative or beyond the
    end of the route: it never raises, it produces [end_wp' + 1 - start_wp]
    points (none when that is not positive), where [end_wp'] is [end_wp]
    plus the length of the route when [end_wp < start_wp], and its k-th
    point is the route point of index [(start_wp + k) mod n], an index of
    the route. *)
Theorem extract_any_range wps start_wp end_wp :
  wps ≠ [] →
  let n := Z.of_nat (length wps) in
  let end_wp' := if end_wp <? start_wp then end_wp + n else end_wp in
  ∃ out, extract wps start_wp end_wp = Ok out
         ∧ Z.of_nat (length out) = Z.max 0 (end_wp' + 1 - start_wp)
         ∧ ∀ k : nat, (k < length out)%nat →
             0 ≤ (start_wp + Z.of_nat k) `mod` n < n
             ∧ ∃ wp, wps !! Z.to_nat ((start_wp + Z.of_nat k) `mod` n) = Some wp
                     ∧ out !! k = Some wp.
Proof.
  intros Hne n end_wp'.
  destruct (extract_ok wps start_wp end_wp Hne) as (out & Hout & Hlen & Hk).
  fold n in Hlen, Hk. fold end_wp' in Hlen.
  assert (0 < n) by (subst n; destruct wps; [done|simpl; lia]).
  exists out. split; [done|]. split; [lia|].
  intros k Hklt. split; [apply Z.mod_pos_bound; lia|].
  destruct (Hk k Hklt) as [Heq [wp Hwp]]. exists wp. by rewrite <- Heq.
Qed.

Lemma extract_any_range_witness :
  ∃ out, extract route5 (-3) 7 = Ok out
         ∧ Z.of_nat (length out) = Z.max 0 (7 + 1 - -3)
         ∧ ∀ k : nat, (k < length out)%nat →
             0 ≤ (-3 + Z.of_nat k) `mod` 5 < 5
             ∧ ∃ wp, route5 !! Z.to_nat ((-3 + Z.of_nat k) `mod` 5) = Some wp
                     ∧ out !! k = Some wp.
Proof. apply (extract_any_range route5 (-3) 7). discriminate. Defined.

(** X8: on a route that is not empty, [get_final_waypoints] raises in two
    cases only: [IndexError] in the mode BRAKING when the range is empty
    ([decelerate] takes the last point of an empty window), and
    [AttributeError] in the mode CRUISE when there is no pose yet and the
    current speed is at most 0.0001. *)
Theorem get_final_waypoints_raises_iff self wps start_wp end_wp e :
  wps ≠ [] →
  let n := Z.of_nat (length wps) in
  let end_wp' := if end_wp <? start_wp then end_wp + n else end_wp in
  get_final_waypoints self wps start_wp end_wp = Raise e ↔
  (e = IndexError ∧ braking self = true ∧ end_wp' < start_wp)
  ∨ (e = AttributeError ∧ braking self = false ∧ current_pose self = None
     ∧ (current_velocity self <=? standstill)%float = true).
Proof.
  intros Hne n end_wp'. unfold get_final_waypoints.
  destruct (extract_ok wps start_wp end_wp Hne) as (raw & -> & Hlen & _).
  fold n in Hlen. fold end_wp' in Hlen. bind_step.
  destruct (braking self).
  - destruct raw as [|wp raw].
    + simpl in Hlen. split; [intros [= <-]; left; split_and!; [done|done|lia]|].
      by intros [(-> & _)|(_ & ? & _)].
    + simpl in Hlen. destruct (decelerate_total (wp :: raw)) as (out & ->); [done|].
      split; [done|]. intros [(_ & _ & ?)|(_ & ? & _)]; [lia|done].
  - unfold accelerate. split.
    + intros H. right.
      destruct (current_velocity self <=? standstill)%float.
      * destruct (current_pose self) as [ps|]; [|by injection H as <-].
        revert H. bind_step. cbn [last_starting_point set_last_starting_point].
        by destruct (accelerate_loop_ok (position (ps_pose ps)) raw) as (out & -> & _).
      * revert H. bind_step. destruct (last_starting_point self) as [start|]; [|done].
        by destruct (accelerate_loop_ok start raw) as (out & -> & _).
    + by intros [(_ & ? & _)|(-> & _ & -> & ->)].
Qed.

Lemma get_final_waypoints_raises_iff_witness :
  get_final_waypoints (node5 35 0 (-2) true) route5 4 (-2) = Raise IndexError.
Proof.
  apply (get_final_waypoints_raises_iff (node5 35 0 (-2) true) route5 4 (-2));
    [discriminate|].
  left. split; [reflexivity|]. split; [reflexivity|]. vm_compute. reflexivity.
Defined.

(** ** The cycle: what it decides, what it raises, what it changes *)

(** The braking window, from [next_wp] to a stop index of the route. *)
Lemma braking_window self wps next_wp traffic_wp tl_wp :
  let n := Z.of_nat (length wps) in
  0 ≤ next_wp < n → 0 ≤ traffic_wp < n →
  wps !! Z.to_nat traffic_wp = Some tl_wp →
  braking self = true →
  ∃ front,
    get_final_waypoints self wps next_wp traffic_wp
    = Ok (front ++ [set_speed tl_wp 0], self)
    ∧ Z.of_nat (length front) = (traffic_wp - next_wp) `mod` n.
Proof.
  intros n Hnext Htw Htl Hb.
  assert (wps ≠ []) as Hne by (intros ->; simpl in n; lia).
  destruct (extract_ok wps next_wp traffic_wp Hne) as (raw & Hraw & Hlen & Hk).
  fold n in Hlen, Hk.
  assert ((traffic_wp - next_wp) `mod` n
          = if traffic_wp <? next_wp then traffic_wp - next_wp + n
            else traffic_wp - next_wp) as Hmod.
  { destruct (Z.ltb_spec traffic_wp next_wp).
    - symmetry. apply (Z.mod_unique_pos _ n (-1)); lia.
    - apply Z.mod_small. lia. }
  rewrite Hmod. destruct (snoc_inv raw) as (front & lst & ->).
  { intros ->. simpl in Hlen. destruct (Z.ltb_spec traffic_wp next_wp); lia. }
  rewrite length_app in Hlen. cbn [length] in Hlen.
  destruct (Hk (length front)) as [Hlst _]; [rewrite length_app; simpl; lia|].
  rewrite list_lookup_middle in Hlst by done.
  replace ((next_wp + Z.of_nat (length front)) `mod` n) with traffic_wp in Hlst.
  2:{ destruct (Z.ltb_spec traffic_wp next_wp).
      - apply (Z.mod_unique_pos _ n 1); lia.
      - rewrite Z.mod_small by lia. lia. }
  assert (lst = tl_wp) as -> by congruence.
  unfold get_final_waypoints. rewrite Hraw, Hb. bind_step.
  rewrite decelerate_snoc.
  destruct (decelerate_loop_ok (wp_position tl_wp) front) as (front' & Hfront & HF).
  rewrite Hfront. bind_step. exists front'. split; [done|].
  rewrite <- (Forall2_length _ _ _ HF).
  destruct (Z.ltb_spec traffic_wp next_wp); lia.
Qed.

(** The lookahead window. *)
Lemma cruise_window self wps ps next_wp :
  wps ≠ [] → current_pose self = Some ps → braking self = false →
  ∃ final self',
    get_final_waypoints self wps next_wp (next_wp + LOOKAHEAD_WPS)
    = Ok (final, self')
    ∧ Z.of_nat (length final) = LOOKAHEAD_WPS + 1
    ∧ braking self' = false.
Proof.
  intros Hne Hps Hb.
  destruct (extract_ok wps next_wp (next_wp + LOOKAHEAD_WPS) Hne)
    as (raw & Hraw & Hlen & _).
  destruct (Z.ltb_spec (next_wp + LOOKAHEAD_WPS) next_wp);
    [unfold LOOKAHEAD_WPS in *; lia|].
  destruct (accelerate_ok self raw ps Hps) as (final & self' & Hacc).
  destruct (accelerate_inv _ _ _ _ Hacc) as [HF Hself'].
  unfold get_final_waypoints. rewrite Hraw, Hb. bind_step.
  exists final, self'. split; [done|]. split.
  - rewrite <- (Forall2_length _ _ _ HF), Hlen. unfold LOOKAHEAD_WPS. lia.
  - by rewrite Hself'.
Qed.



Lemma empty_route_raises_aux self lane ps :
  base_waypoints self = Some lane → current_pose self = Some ps →
  waypoints lane = [] → loop self = Raise ZeroDivisionError.
Proof. intros Hlane Hps Hnil. unfold loop. by rewrite Hlane, Hps, Hnil. Qed.

(** X10: with a pose and a route that has no point, the cycle raises
    [ZeroDivisionError] (from [(closest_wp + 1) % len(waypoints)]), whatever
    the stop signal, the speed and the mode. *)
Theorem empty_route_raises self lane ps :
  base_waypoints self = Some lane →
  current_pose self = Some ps →
  waypoints lane = [] →
  loop self = Raise ZeroDivisionError.
Proof. intros Hlane Hps Hnil. unfold loop. by rewrite Hlane, Hps, Hnil. Qed.

Lemma empty_route_raises_witness :
  loop (base_waypoints_cb (node5 0 0 (-1) false)
          {| lane_header := hdr0; waypoints := [] |})
  = Raise ZeroDivisionError.
Proof.
  apply (empty_route_raises _ {| lane_header := hdr0; waypoints := [] |}
           (mk_pose 0 0)); reflexivity.
Defined.

Lemma get_final_waypoints_starting_point self wps start_wp end_wp final self' :
  get_final_waypoints self wps start_wp end_wp = Ok (final, self') →
  last_starting_point self' =
    (if braking self then last_starting_point self
     else if (current_velocity self <=? standstill)%float
          then (λ ps, position (ps_pose ps)) <$> current_pose self
          else last_starting_point self).
Proof.
  unfold get_final_waypoints. intros H. apply bind_Ok in H as (raw & _ & H).
  destruct (braking self).
  - by apply bind_Ok in H as (out & _ & [= <- <-]).
  - unfold accelerate in H. apply bind_Ok in H as (s & Hs & H).
    assert (last_starting_point self' = last_starting_point s) as ->.
    { destruct (last_starting_point s) eqn:E; [|by injection H as <- <-].
      by apply bind_Ok in H as (out & _ & [= <- <-]). }
    destruct (_ <=? _)%float; [|by injection Hs as <-].
    destruct (current_pose self); [|done]. by injection Hs as <-.
Qed.

(** The node after a cycle that returns. *)
Lemma loop_state self out self' :
  loop self = Ok (out, self') →
  match out with
  | None => self' = self
  | Some _ =>
      self' = set_last_starting_point (set_braking self (braking self'))
                (if braking self' then last_starting_point self
                 else if (current_velocity self <=? standstill)%float
                      then (λ ps, position (ps_pose ps)) <$> current_pose self
                      else last_starting_point self)
  end.
Proof.
  intros H. apply loop_inv in H.
  destruct (base_waypoints self) as [lane|]; [|by destruct H as [-> ->]].
  destruct (current_pose self) as [ps|] eqn:Hps; [|by destruct H as [-> ->]].
  destruct H as (next_wp & end_wp & b & final & -> & _ & Hfinal & _).
  pose proof (get_final_waypoints_starting_point _ _ _ _ _ _ Hfinal) as Hstart.
  apply get_final_waypoints_inv in Hfinal as (raw & _ & _ & Hself' & _).
  cbn [braking set_braking last_starting_point current_velocity current_pose]
    in Hstart.
  rewrite Hps in Hstart.
  assert (braking self' = b) as Hb by (by rewrite Hself').
  by rewrite Hb, <- Hstart.
Qed.

(** X11: a cycle assigns two attributes of the node only, the mode and the
    starting point of the acceleration ramp; the route, the pose, the speed,
    the stop signal and the obstacle index are as before.  A cycle that
    publishes nothing changes nothing.  The starting point changes only in
    a cycle that ends in CRUISE with a current speed of at most 0.0001, and
    then it is the current position. *)
Theorem loop_assigns_mode_and_start self out self' :
  loop self = Ok (out, self') →
  base_waypoints self' = base_waypoints self
  ∧ current_pose self' = current_pose self
  ∧ current_velocity self' = current_velocity self
  ∧ traffic_waypoint self' = traffic_waypoint self
  ∧ obstacle_waypoint self' = obstacle_waypoint self
  ∧ (out = None → self' = self)
  ∧ (last_starting_point self' ≠ last_starting_point self →
     braking self' = false
     ∧ (current_velocity self <=? standstill)%float = true
     ∧ last_starting_point self'
       = (λ ps, position (ps_pose ps)) <$> current_pose self).
Proof.
  intros H%loop_state. destruct out as [final|]; [|by subst].
  split_and!; try (by rewrite H); try done.
  intros Hne. rewrite H in Hne |- *.
  cbn [braking set_braking last_starting_point set_last_starting_point] in *.
  destruct (braking self'); [done|].
  by destruct (current_velocity self <=? standstill)%float.
Qed.

Lemma loop_assigns_mode_and_start_witness :
  traffic_waypoint (set_last_starting_point (node5 0 0 (-1) false)
                      (Some (wp_position (mk_wp 0 0 11))))
  = traffic_waypoint (node5 0 0 (-1) false).
Proof.
  refine (proj1 (proj2 (proj2 (proj2
            (loop_assigns_mode_and_start (node5 0 0 (-1) false) _ _ _))))).
  vm_compute. reflexivity.
Defined.

(** *** The obstacle index *)

Lemma accelerate_obstacle self data wps :
  accelerate (obstacle_waypoint_cb self data) wps =
  '(out, s) ← accelerate self wps; Ok (out, obstacle_waypoint_cb s data).
Proof.
  unfold accelerate.
  cbn [current_velocity current_pose last_starting_point obstacle_waypoint_cb].
  destruct (_ <=? _)%float.
  - destruct (current_pose self) as [ps|]; [|done]. bind_step.
    cbn [last_starting_point set_last_starting_point].
    by destruct (accelerate_loop (position (ps_pose ps)) wps).
  - bind_step. cbn [last_starting_point obstacle_waypoint_cb].
    destruct (last_starting_point self) as [start|]; [|done].
    by destruct (accelerate_loop start wps).
Qed.

Lemma get_final_waypoints_obstacle self data wps start_wp end_wp :
  get_final_waypoints (obstacle_waypoint_cb self data) wps start_wp end_wp =
  '(final, s) ← get_final_waypoints self wps start_wp end_wp;
  Ok (final, obstacle_waypoint_cb s data).
Proof.
  unfold get_final_waypoints. destruct (extract wps start_wp end_wp) as [raw|e];
    [|done].
  bind_step. cbn [braking obstacle_waypoint_cb]. destruct (braking self).
  - by destruct (decelerate raw).
  - rewrite accelerate_obstacle. by destruct (accelerate self raw) as [[]|].
Qed.

(** X12: the obstacle index is never read.  A cycle after an obstacle
    message raises what it would raise without the message and publishes
    the same window; the node after it is the one it would be, with the
    obstacle index stored. *)
Theorem loop_ignores_obstacle self data :
  loop (obstacle_waypoint_cb self data) =
  '(out, s) ← loop self; Ok (out, obstacle_waypoint_cb s data).
Proof.
  unfold loop.
  cbn [base_waypoints current_pose traffic_waypoint current_velocity braking
       obstacle_waypoint_cb].
  destruct (base_waypoints self) as [lane|]; [|done].
  destruct (current_pose self) as [ps|]; [|done].
  destruct (get_next_waypoint ps (waypoints lane)) as [next_wp|]; [|done].
  bind_step.
  destruct (py_index (waypoints lane) (traffic_waypoint self)) as [tl_wp|]; [|done].
  bind_step.
  destruct (distance (position (ps_pose ps)) (wp_position tl_wp)) as [tl_dist|];
    [|done].
  bind_step. destruct (float_pow2 (current_velocity self)) as [v2|]; [|done].
  bind_step. cbv zeta.
  change (set_braking (obstacle_waypoint_cb self data) ?b)
    with (obstacle_waypoint_cb (set_braking self b) data).
  destruct (traffic_waypoint self =? -1).
  - rewrite get_final_waypoints_obstacle.
    by destruct (get_final_waypoints (set_braking self false) _ _ _) as [[]|].
  - destruct (negb (braking self) && _).
    + rewrite get_final_waypoints_obstacle.
      by destruct (get_final_waypoints self _ _ _) as [[]|].
    + rewrite get_final_waypoints_obstacle.
      by destruct (get_final_waypoints (set_braking self true) _ _ _) as [[]|].
Qed.

(** *** The exceptions of a cycle *)

Lemma py_index_in_range {A} (l : list A) (i : Z) :
  - Z.of_nat (length l) ≤ i < Z.of_nat (length l) → ∃ a, py_index l i = Ok a.
Proof.
  intros Hi. unfold py_index. destruct (Z.ltb_spec i 0).
  - destruct (Z.leb_spec 0 (i + Z.of_nat (length l))); [|lia].
    destruct (Z.ltb_spec (i + Z.of_nat (length l)) (Z.of_nat (length l))); [|lia].
    simpl. destruct (lookup_lt_is_Some_2 l (Z.to_nat (i + Z.of_nat (length l))))
      as [a ->]; [lia|]. eauto.
  - destruct (py_index_Ok l i) as (a & Ha & _); [lia|].
    unfold py_index in Ha. destruct (Z.ltb_spec i 0); [lia|]. eauto.
Qed.

Lemma py_index_raise_inv {A} (l : list A) (i : Z) e :
  py_index l i = Raise e →
  e = IndexError ∧ (i < - Z.of_nat (length l) ∨ Z.of_nat (length l) ≤ i).
Proof.
  intros H.
  destruct (decide (- Z.of_nat (length l) ≤ i < Z.of_nat (length l))) as [Hi|Hi].
  - destruct (py_index_in_range l i Hi) as (a & Ha). congruence.
  - rewrite py_index_out_of_range in H by lia. split; [congruence|lia].
Qed.

Lemma get_final_waypoints_braking_raise self wps start_wp end_wp e :
  wps ≠ [] → braking self = true →
  get_final_waypoints self wps start_wp end_wp = Raise e → e = IndexError.
Proof.
  intros Hne Hb. unfold get_final_waypoints.
  destruct (extract_ok wps start_wp end_wp Hne) as (raw & -> & _). bind_step.
  rewrite Hb. destruct raw as [|wp raw]; [by intros [= <-]|].
  by destruct (decelerate_total (wp :: raw)) as (out & ->).
Qed.

(** The exceptions of a cycle, and what raises them. *)
Lemma loop_raise_cases self e :
  loop self = Raise e →
  ∃ lane ps,
    base_waypoints self = Some lane ∧ current_pose self = Some ps
    ∧ let n := Z.of_nat (length (waypoints lane)) in
      (e = ZeroDivisionError ∧ waypoints lane = [])
      ∨ (e = IndexError ∧ waypoints lane ≠ []
         ∧ traffic_waypoint self ≠ -1
         ∧ ¬ (0 ≤ traffic_waypoint self < n))
      ∨ (e = OverflowError ∧ waypoints lane ≠ []
         ∧ - n ≤ traffic_waypoint self < n
         ∧ float_pow2 (current_velocity self) = Raise OverflowError).
Proof.
  intros H.
  destruct (base_waypoints self) as [lane|] eqn:Hlane;
    [|by unfold loop in H; rewrite Hlane in H].
  destruct (current_pose self) as [ps|] eqn:Hps;
    [|by unfold loop in H; rewrite Hlane, Hps in H].
  exists lane, ps. split; [done|]. split; [done|]. cbv zeta.
  destruct (decide (waypoints lane = [])) as [Hnil|Hne].
  { left. rewrite (empty_route_raises_aux self lane ps Hlane Hps Hnil) in H.
    split; [congruence|done]. }
  right.
  destruct (loop_prefix self lane ps Hlane Hps Hne) as (next_wp & Hnext & Hn & Hloop).
  rewrite Hloop in H. clear Hloop.
  destruct (py_index (waypoints lane) (traffic_waypoint self)) as [tl_wp|e']
    eqn:Htl; revert H; bind_step.
  2:{ intros [= <-]. apply py_index_raise_inv in Htl as [-> Htw].
      left. split_and!; [done|done|lia|lia]. }
  apply py_index_inv in Htl as [Htw Htl].
  destruct (distance_ok (position (ps_pose ps)) (wp_position tl_wp))
    as (tl_dist & -> & _). bind_step.
  destruct (float_pow2 (current_velocity self)) as [v2|e'] eqn:Hv2; bind_step.
  2:{ intros [= <-]. right. unfold float_pow2 in Hv2.
      destruct (_ && _); [|done]. injection Hv2 as <-.
      cbv zeta in Htw. split_and!; [done|done|lia|lia|done]. }
  cbv zeta. destruct (Z.eqb_spec (traffic_waypoint self) (-1)) as [Hm1|Hm1].
  { destruct (cruise_window (set_braking self false) (waypoints lane) ps next_wp
                Hne Hps eq_refl) as (final & self' & -> & _). done. }
  destruct (negb (braking self) && _) eqn:Hclose.
  { apply andb_prop in Hclose as [Hb%negb_true_iff _].
    destruct (cruise_window self (waypoints lane) ps next_wp Hne Hps Hb)
      as (final & self' & -> & _). done. }
  destruct (get_final_waypoints (set_braking self true) (waypoints lane) next_wp
              (traffic_waypoint self)) as [[final s]|e'] eqn:Hfinal; [done|].
  intros [= <-]. left.
  pose proof (get_final_waypoints_braking_raise (set_braking self true) _ _ _ _
                Hne eq_refl Hfinal) as ->.
  split_and!; [done|done|done|]. intros Hin.
  rewrite Z.mod_small in Htl by lia.
  destruct (braking_window (set_braking self true) (waypoints lane) next_wp
              (traffic_waypoint self) tl_wp Hn Hin Htl eq_refl) as (front & Hok & _).
  congruence.
Qed.

(** X13: a cycle raises one of three exceptions only, never [ValueError]
    (no square root of a negative number) and never [AttributeError], and
    only once the route and a pose have arrived: [ZeroDivisionError] when
    the route has no point; [IndexError] when the stop signal is neither -1
    nor an index of the route; [OverflowError] when the square of the
    current speed is out of range. *)
Theorem loop_raises self e :
  loop self = Raise e →
  ∃ lane ps,
    base_waypoints self = Some lane ∧ current_pose self = Some ps
    ∧ let n := Z.of_nat (length (waypoints lane)) in
      (e = ZeroDivisionError ∧ waypoints lane = [])
      ∨ (e = IndexError ∧ waypoints lane ≠ []
         ∧ traffic_waypoint self ≠ -1
         ∧ ¬ (0 ≤ traffic_waypoint self < n))
      ∨ (e = OverflowError ∧ waypoints lane ≠ []
         ∧ - n ≤ traffic_waypoint self < n
         ∧ float_pow2 (current_velocity self) = Raise OverflowError).
Proof. exact (loop_raise_cases self e). Qed.

Lemma loop_raises_witness :
  ∃ lane ps,
    base_waypoints (node5 35 0 (-2) false) = Some lane
    ∧ current_pose (node5 35 0 (-2) false) = Some ps
    ∧ let n := Z.of_nat (length (waypoints lane)) in
      (IndexError = ZeroDivisionError ∧ waypoints lane = [])
      ∨ (IndexError = IndexError ∧ waypoints lane ≠ []
         ∧ traffic_waypoint (node5 35 0 (-2) false) ≠ -1
         ∧ ¬ (0 ≤ traffic_waypoint (node5 35 0 (-2) false) < n))
      ∨ (IndexError = OverflowError ∧ waypoints lane ≠ []
         ∧ - n ≤ traffic_waypoint (node5 35 0 (-2) false) < n
         ∧ float_pow2 (current_velocity (node5 35 0 (-2) false))
           = Raise OverflowError).
Proof.
  apply (loop_raises (node5 35 0 (-2) false) IndexError).
  vm_compute. reflexivity.
Defined.

(** *** Runs on well-formed messages *)

Lemma node_ok_init n : node_ok n init.
Proof.
  split_and!; [done|by left|]. exists 0%float. vm_compute. reflexivity.
Qed.

Lemma loop_total n self :
  0 < n → node_ok n self →
  ∃ out self', loop self = Ok (out, self') ∧ node_ok n self'.
Proof.
  intros Hn (Hroute & Htw & v2 & Hv2).
  destruct (loop self) as [[out self']|e] eqn:Hloop.
  - exists out, self'. split; [done|].
    apply loop_state in Hloop. destruct out as [final|].
    + rewrite Hloop. split_and!; [exact Hroute|exact Htw|by exists v2].
    + rewrite Hloop. split_and!; [exact Hroute|exact Htw|by exists v2].
  - exfalso. apply loop_raise_cases in Hloop as (lane & ps & Hlane & _ & Hcases).
    cbv zeta in Hcases. specialize (Hroute lane Hlane).
    destruct Hcases as [[_ Hnil]|[(_ & _ & Hm1 & Hout)|(_ & _ & _ & Hov)]].
    + rewrite Hnil in Hroute. simpl in Hroute. lia.
    + lia.
    + congruence.
Qed.

Lemma step_total n self e :
  0 < n → node_ok n self → valid_event n e →
  ∃ self', step self e = Ok self' ∧ node_ok n self'.
Proof.
  intros Hn Hok He. destruct e as [msg|msg|data|data|msg|]; cbn [step].
  - eexists. split; [done|]. exact Hok.
  - eexists. split; [done|]. destruct Hok as (_ & Htw & Hv).
    split_and!; [|exact Htw|exact Hv]. intros lane [= <-]. exact He.
  - eexists. split; [done|]. destruct Hok as (Hroute & _ & Hv).
    split_and!; [exact Hroute|exact He|exact Hv].
  - eexists. split; [done|]. exact Hok.
  - eexists. split; [done|]. destruct Hok as (Hroute & Htw & _).
    split_and!; [exact Hroute|exact Htw|exact He].
  - destruct (loop_total n self Hn Hok) as (out & self' & -> & Hok').
    bind_step. by exists self'.
Qed.

Lemma run_total n self es :
  0 < n → node_ok n self → Forall (valid_event n) es →
  ∃ self', run self es = Ok self' ∧ node_ok n self'.
Proof.
  intros Hn Hok Hes. revert self Hok.
  induction Hes as [|e es He _ IH]; intros self Hok; cbn [run].
  - by exists self.
  - destruct (step_total n self e Hn Hok He) as (self1 & -> & Hok1). bind_step.
    exact (IH self1 Hok1).
Qed.

(** X14: the node never raises on well-formed messages.  From the state
    that [__init__] sets up, any sequence of messages and cycles, in any
    order, in which every route has the same positive number [n] of points,
    every stop signal is -1 or an index below [n], and the square of every
    reported speed is in range, runs to the end; the state it reaches again
    holds only such data. *)
Theorem run_never_raises n es :
  0 < n → Forall (valid_event n) es →
  ∃ self, run init es = Ok self ∧ node_ok n self.
Proof. intros Hn Hes. exact (run_total n init es Hn (node_ok_init n) Hes). Qed.

Lemma run_never_raises_witness :
  ∃ self,
    run init [TrafficMsg 3; RouteMsg {| lane_header := hdr0; waypoints := route5 |};
              Cycle; PoseMsg (mk_pose 12 0); VelocityMsg (mk_twist 4); Cycle;
              TrafficMsg (-1); ObstacleMsg 7; Cycle]
    = Ok self ∧ node_ok 5 self.
Proof.
  apply (run_never_raises 5).
  - lia.
  - repeat first [apply Forall_nil_2 | apply Forall_cons_2]; cbn [valid_event];
      first [exact I | reflexivity | right; lia | left; reflexivity
            | eexists; vm_compute; reflexivity].
Defined.

(** *** What a cycle publishes *)

Lemma decelerate_nonempty wps out : decelerate wps = Ok out → out ≠ [].
Proof.
  destruct wps as [|wp wps]; [done|].
  destruct (snoc_inv (wp :: wps)) as (front & lst & ->); [done|].
  rewrite decelerate_snoc. intros H.
  apply bind_Ok in H as (front' & _ & [= <-]). by destruct front'.
Qed.

Lemma get_final_waypoints_braking_nonempty self wps start_wp end_wp final self' :
  braking self = true →
  get_final_waypoints self wps start_wp end_wp = Ok (final, self') → final ≠ [].
Proof.
  unfold get_final_waypoints. intros Hb H.
  apply bind_Ok in H as (raw & _ & H). rewrite Hb in H.
  apply bind_Ok in H as (out & Hout & [= <- _]).
  by apply decelerate_nonempty in Hout.
Qed.

(** X15: a cycle that returns publishes exactly when a route and a pose
    have arrived, and a lane it publishes has at least one point. *)
Theorem loop_publishes self out self' :
  loop self = Ok (out, self') →
  match out with
  | None => base_waypoints self = None ∨ current_pose self = None
  | Some final =>
      is_Some (base_waypoints self) ∧ is_Some (current_pose self) ∧ final ≠ []
  end.
Proof.
  intros H.
  destruct (base_waypoints self) as [lane|] eqn:Hlane.
  2:{ unfold loop in H. rewrite Hlane in H. injection H as <- _. by left. }
  destruct (current_pose self) as [ps|] eqn:Hps.
  2:{ unfold loop in H. rewrite Hlane, Hps in H. injection H as <- _. by right. }
  destruct (decide (waypoints lane = [])) as [Hnil|Hne].
  { by rewrite (empty_route_raises_aux self lane ps Hlane Hps Hnil) in H. }
  destruct (loop_prefix self lane ps Hlane Hps Hne) as (next_wp & _ & Hn & Hloop).
  rewrite Hloop in H. clear Hloop.
  apply bind_Ok in H as (tl_wp & _ & H).
  apply bind_Ok in H as (tl_dist & _ & H).
  apply bind_Ok in H as (v2 & _ & H). cbv zeta in H.
  assert (∀ s, current_pose s = Some ps → braking s = false →
            ('(final, s') ← get_final_waypoints s (waypoints lane) next_wp
                              (next_wp + LOOKAHEAD_WPS);
             Ok (Some final, s')) = Ok (out, self') →
            ∃ final, out = Some final ∧ final ≠ []) as Hcruise.
  { intros s Hs Hb Hc.
    destruct (cruise_window s (waypoints lane) ps next_wp Hne Hs Hb)
      as (final & s' & Hfinal & Hlen & _).
    rewrite Hfinal in Hc. injection Hc as <- _. exists final. split; [done|].
    intros ->. unfold LOOKAHEAD_WPS in Hlen. simpl in Hlen. lia. }
  assert (∃ final, out = Some final ∧ final ≠ []) as (final & -> & Hfinal).
  { destruct (traffic_waypoint self =? -1).
    - by apply (Hcruise (set_braking self false)).
    - destruct (negb (braking self) && _) eqn:Hclose.
      + apply andb_prop in Hclose as [Hb%negb_true_iff _].
        by apply (Hcruise self).
      + apply bind_Ok in H as ([final s] & Hf & [= <- _]).
        exists final. split; [done|].
        by apply get_final_waypoints_braking_nonempty in Hf. }
  split_and!; [by eexists|by eexists|done].
Qed.

Lemma loop_publishes_witness :
  ∃ final self',
    loop (node5 35 0 1 false) = Ok (Some final, self')
    ∧ is_Some (base_waypoints (node5 35 0 1 false))
    ∧ is_Some (current_pose (node5 35 0 1 false)) ∧ final ≠ [].
Proof.
  eexists _, _. split; [vm_compute; reflexivity|].
  refine (loop_publishes (node5 35 0 1 false) (Some _) _ _).
  vm_compute. reflexivity.
Defined.

(** *** A pose that is not a number *)

Lemma is_nan_spec x : is_nan x = true → Prim2SF x = S754_nan.
Proof.
  unfold is_nan. rewrite FloatAxioms.eqb_spec. unfold SFeqb.
  destruct (sf_is_nan (Prim2SF x)) eqn:E.
  - by destruct (Prim2SF x).
  - by rewrite (SFcompare_refl _ E).
Qed.

Lemma SFsub_nan_l y : SFsub prec emax S754_nan y = S754_nan.
Proof. by destruct y. Qed.

Lemma SFmul_nan_l y : SFmul prec emax S754_nan y = S754_nan.
Proof. by destruct y. Qed.

Lemma SFmul_nan_r x : SFmul prec emax x S754_nan = S754_nan.
Proof. by destruct x. Qed.

Lemma SFadd_nan_l y : SFadd prec emax S754_nan y = S754_nan.
Proof. by destruct y. Qed.

Lemma SFadd_nan_r x : SFadd prec emax x S754_nan = S754_nan.
Proof. by destruct x. Qed.

Lemma distance_nan p1 p2 :
  is_nan (p_x p1) || is_nan (p_y p1) || is_nan (p_z p1) = true →
  ∃ d, distance p1 p2 = Ok d ∧ Prim2SF d = S754_nan.
Proof.
  intros H. unfold distance, math_sqrt. cbv zeta.
  match goal with |- context [PrimFloat.sqrt ?r] =>
    assert (Prim2SF r = S754_nan) as Hr end.
  { rewrite !add_spec, !mul_spec, !sub_spec.
    apply orb_prop in H as [H|H]; [apply orb_prop in H as [H|H]|];
      apply is_nan_spec in H; rewrite H, SFsub_nan_l, SFmul_nan_l.
    - by rewrite !SFadd_nan_l.
    - by rewrite SFadd_nan_r, SFadd_nan_l.
    - by rewrite SFadd_nan_r. }
  rewrite ltb_spec, Hr. cbn [SFltb SFcompare]. eexists. split; [done|].
  by rewrite sqrt_spec, Hr.
Qed.

Lemma closest_scan_nan p wps i closest_dist closest_wp :
  is_nan (p_x p) || is_nan (p_y p) || is_nan (p_z p) = true →
  closest_scan p wps i closest_dist closest_wp = Ok closest_wp.
Proof.
  intros H. revert i. induction wps as [|wp rest IH]; intros i;
    cbn [closest_scan]; [done|].
  destruct (distance_nan p (wp_position wp) H) as (d & -> & Hd). bind_step.
  rewrite ltb_spec, Hd. cbn [SFltb SFcompare]. apply IH.
Qed.

(** X16: a pose with a coordinate that is not a number is closest to the
    first point of the route, since no distance compares below the running
    minimum; when that coordinate is x or y the next point is the first
    point as well, since the test on the dot product fails. *)
Theorem nan_pose_selects_first ps wps :
  let p := position (ps_pose ps) in
  is_nan (p_x p) || is_nan (p_y p) || is_nan (p_z p) = true →
  get_closest_waypoint ps wps = Ok 0
  ∧ (wps ≠ [] → is_nan (p_x p) || is_nan (p_y p) = true →
     get_next_waypoint ps wps = Ok 0).
Proof.
  intros p H.
  assert (get_closest_waypoint ps wps = Ok 0) as Hc
    by (by apply closest_scan_nan).
  split; [done|]. intros Hne Hxy. unfold get_next_waypoint. rewrite Hc. bind_step.
  assert (0 < Z.of_nat (length wps)) as Hn by (destruct wps; [done|simpl; lia]).
  rewrite py_mod_Ok by lia. bind_step.
  destruct (py_index_Ok wps 0) as (wp0 & -> & _); [lia|]. bind_step.
  destruct (py_index_Ok wps ((0 + 1) `mod` Z.of_nat (length wps)))
    as (wp1 & -> & _); [by apply Z.mod_pos_bound|]. bind_step. cbv zeta.
  rewrite leb_spec, add_spec, !mul_spec, !sub_spec. fold p.
  apply orb_prop in Hxy as [Hx|Hy].
  - apply is_nan_spec in Hx.
    by rewrite Hx, SFsub_nan_l, SFmul_nan_l, SFadd_nan_r.
  - apply is_nan_spec in Hy.
    by rewrite Hy, SFsub_nan_l, SFmul_nan_l, SFadd_nan_l.
Qed.

Lemma nan_pose_selects_first_witness :
  get_closest_waypoint (mk_pose nan 35) route5 = Ok 0
  ∧ (route5 ≠ [] →
     is_nan (p_x (position (ps_pose (mk_pose nan 35))))
     || is_nan (p_y (position (ps_pose (mk_pose nan 35)))) = true →
     get_next_waypoint (mk_pose nan 35) route5 = Ok 0).
Proof.
  apply (nan_pose_selects_first (mk_pose nan 35) route5).
  vm_compute. reflexivity.
Defined.

(** *** A pose on its closest point *)

Lemma SFmul_zero_finite y :
  sf_finite y = true → ∃ s, SFmul prec emax (S754_zero false) y = S754_zero s.
Proof. destruct y as [s| | |s m e]; try done; intros _; simpl; eauto. Qed.

Lemma zero_mul_finite y :
  is_finite y = true → ∃ s, Prim2SF (0 * y)%float = S754_zero s.
Proof.
  intros H%is_finite_spec. rewrite mul_spec, Prim2SF_0.
  by apply SFmul_zero_finite.
Qed.

(** X17: the test of [get_next_waypoint] includes equality.  For a pose
    whose x and y are those of its closest point, all finite, with the
    successor at a finite offset, the dot product is a zero and the next
    point is the successor of the closest one. *)
Theorem on_waypoint_advances ps wps closest wp0 wp1 :
  let n := Z.of_nat (length wps) in
  let p := position (ps_pose ps) in
  get_closest_waypoint ps wps = Ok closest →
  wps !! Z.to_nat closest = Some wp0 →
  wps !! Z.to_nat ((closest + 1) `mod` n) = Some wp1 →
  p_x p = p_x (wp_position wp0) → p_y p = p_y (wp_position wp0) →
  is_finite (p_x p) = true → is_finite (p_y p) = true →
  is_finite (p_x (wp_position wp1) - p_x (wp_position wp0)) = true →
  is_finite (p_y (wp_position wp1) - p_y (wp_position wp0)) = true →
  get_next_waypoint ps wps = Ok ((closest + 1) `mod` n).
Proof.
  intros n p Hc Hwp0 Hwp1 Hx Hy Hfx Hfy Hdx Hdy.
  assert (wps ≠ []) as Hne by (by intros ->).
  destruct (get_closest_waypoint_ok ps wps Hne) as (c & Hc' & Hcn).
  assert (c = closest) as -> by congruence. fold n in Hcn.
  pose proof (Z.mod_pos_bound (closest + 1) n ltac:(lia)) as Hm.
  destruct (py_index_Ok wps closest Hcn) as (wp0' & Hi0 & Hwp0').
  destruct (py_index_Ok wps _ Hm) as (wp1' & Hi1 & Hwp1').
  assert (wp0' = wp0) as -> by congruence.
  assert (wp1' = wp1) as -> by congruence.
  unfold get_next_waypoint. rewrite Hc. bind_step.
  rewrite py_mod_Ok by lia. bind_step. fold n. rewrite Hi0. bind_step.
  rewrite Hi1. bind_step. cbv zeta. fold p. rewrite Hx, Hy in *.
  rewrite !sub_diag_finite by done.
  destruct (zero_mul_finite _ Hdx) as (sx & Hsx).
  destruct (zero_mul_finite _ Hdy) as (sy & Hsy).
  rewrite leb_0_spec, add_spec, Hsx, Hsy. by destruct sx, sy.
Qed.

Lemma on_waypoint_advances_witness :
  get_next_waypoint (mk_pose 30 0) route5 = Ok ((3 + 1) `mod` 5).
Proof.
  eapply (on_waypoint_advances (mk_pose 30 0) route5 3);
    vm_compute; reflexivity.
Defined.

(** *** The window on the store *)

Lemma store_get_final_waypoints_refines_witness :
  match get_final_waypoints (node5 0 10 3 true) route5 1 3 with
  | Ok (final_v, self') =>
      ∃ final σ',
        Store.get_final_waypoints (node5 0 10 3 true)
          (Store.store_of route5).2 (Store.store_of route5).1 1 3
        = Ok (final, self', σ')
        ∧ Store.read_waypoints σ' final = Ok final_v
  | Raise e =>
      Store.get_final_waypoints (node5 0 10 3 true)
        (Store.store_of route5).2 (Store.store_of route5).1 1 3 = Raise e
  end.
Proof.
  apply (store_get_final_waypoints_refines (node5 0 10 3 true)
           (Store.store_of route5).2 (Store.store_of route5).1 route5 1 3).
  vm_compute. reflexivity.
Defined.

(** The first point of an extraction is made of objects that are there
    before the other points are extracted. *)
Lemma store_copy_waypoints_head σ wps i idx out σ' :
  Store.copy_waypoints σ wps (i :: idx) = Ok (out, σ') →
  ∃ wp rest p t σ5,
    out = wp :: rest
    ∧ σ5 !! wp = Some (Store.OWaypoint p t)
    ∧ is_Some (σ5 !! p) ∧ is_Some (σ5 !! t)
    ∧ Store.copy_waypoints σ5 wps idx = Ok (rest, σ').
Proof.
  cbn [Store.copy_waypoints].
  destruct (Store.new_waypoint σ) as [wp σ1] eqn:Hnew.
  apply new_waypoint_inv in Hnew as (p0 & t0 & Hσ1 & Hwp & Hwp1).
  intros H. apply bind_Ok in H as (index & _ & H).
  apply bind_Ok in H as (src & _ & H).
  apply bind_Ok in H as (src_pose & _ & H).
  apply bind_Ok in H as ([p σ2] & Hp & H).
  apply deepcopy_inv in Hp as (op & _ & Hp & ->).
  apply bind_Ok in H as (σ3 & Hσ3 & H).
  apply set_pose_inv in Hσ3 as (p0' & t0' & Hwp2 & ->).
  apply bind_Ok in H as (src' & _ & H).
  apply bind_Ok in H as (src_twist & _ & H).
  apply bind_Ok in H as ([t σ4] & Ht & H).
  apply deepcopy_inv in Ht as (ot & _ & Ht & ->).
  apply bind_Ok in H as (σ5 & Hσ5 & H).
  apply set_twist_inv in Hσ5 as (p' & t' & Hwp4 & ->).
  apply bind_Ok in H as ([rest σ6] & Hrest & [= <- <-]).
  assert (p ≠ wp) as Hpwp by (intros ->; by rewrite Hwp1 in Hp).
  assert (t ≠ wp) as Htwp.
  { intros ->. by rewrite lookup_insert_eq in Ht. }
  assert (t ≠ p) as Htp.
  { intros ->. by rewrite lookup_insert_ne, lookup_insert_eq in Ht. }
  rewrite lookup_insert_ne, lookup_insert_eq in Hwp4 by done.
  injection Hwp4 as <- <-.
  eexists wp, rest, p, t, _. split; [done|]. split_and!; [| | |exact Hrest].
  - apply lookup_insert_eq.
  - exists op. rewrite lookup_insert_ne by done.
    rewrite lookup_insert_ne by done. rewrite lookup_insert_ne by done.
    apply lookup_insert_eq.
  - exists ot. rewrite lookup_insert_ne by done. apply lookup_insert_eq.
Qed.

Lemma copied_apart σ5 σ' wp p t wi pi ti wj pj tj :
  σ5 ⊆ σ' → σ5 !! wp = Some (Store.OWaypoint p t) →
  is_Some (σ5 !! p) → is_Some (σ5 !! t) → Store.copied σ5 σ' wj →
  wi = wp →
  σ' !! wi = Some (Store.OWaypoint pi ti) →
  σ' !! wj = Some (Store.OWaypoint pj tj) →
  wi ≠ wj ∧ pi ≠ pj ∧ ti ≠ tj.
Proof.
  intros Hσ Hwp [op Hp] [ot Ht] (p' & t' & Hwj' & Hnw & Hnp & Hnt) -> Hwi Hwj.
  rewrite Hwj in Hwj'. injection Hwj' as <- <-.
  rewrite (lookup_weaken _ _ _ _ Hwp Hσ) in Hwi. injection Hwi as <- <-.
  split_and!; intros ->; congruence.
Qed.

Lemma store_copy_waypoints_distinct σ wps idx out σ' :
  Store.copy_waypoints σ wps idx = Ok (out, σ') →
  ∀ (i j : nat) wi wj pi ti pj tj,
    i ≠ j → out !! i = Some wi → out !! j = Some wj →
    σ' !! wi = Some (Store.OWaypoint pi ti) →
    σ' !! wj = Some (Store.OWaypoint pj tj) →
    wi ≠ wj ∧ pi ≠ pj ∧ ti ≠ tj.
Proof.
  revert σ out. induction idx as [|k idx IH]; intros σ out H.
  { cbn [Store.copy_waypoints] in H. injection H as <- _. by intros [|i]. }
  apply store_copy_waypoints_head in H
    as (wp & rest & p & t & σ5 & -> & Hwp & Hp & Ht & Hrest).
  destruct (store_copy_waypoints_frame _ _ _ _ _ Hrest) as [Hσ Hcopied].
  intros [|i] [|j] wi wj pi ti pj tj Hij Hi Hj Hwi Hwj; cbn [lookup list_lookup] in Hi, Hj.
  - done.
  - injection Hi as <-.
    pose proof (Forall_lookup_1 _ _ _ _ Hcopied Hj) as Hc.
    by eapply (copied_apart σ5 σ' wp p t).
  - injection Hj as <-.
    pose proof (Forall_lookup_1 _ _ _ _ Hcopied Hi) as Hc.
    destruct (copied_apart σ5 σ' wp p t wp pj tj wi pi ti) as (? & ? & ?); done.
  - eapply (IH _ _ Hrest i j); [lia|done..].
Qed.

(** X19: the points of a window are pairwise separate objects.  Two points
    at different places of the window are different waypoint objects with
    different pose messages and different twist messages, also when both
    are copies of the same point of the route, so that a speed written to
    one of them shows in no other. *)
Theorem window_points_distinct self σ wps start_wp end_wp final self' σ' :
  Store.get_final_waypoints self σ wps start_wp end_wp = Ok (final, self', σ') →
  ∀ (i j : nat) wi wj pi ti pj tj,
    i ≠ j → final !! i = Some wi → final !! j = Some wj →
    σ' !! wi = Some (Store.OWaypoint pi ti) →
    σ' !! wj = Some (Store.OWaypoint pj tj) →
    wi ≠ wj ∧ pi ≠ pj ∧ ti ≠ tj.
Proof.
  unfold Store.get_final_waypoints. intros H.
  apply bind_Ok in H as ([raw σ1] & Hcopy & H).
  assert (final = raw ∧ Store.same_waypoints σ1 σ') as [-> Hs].
  { destruct (braking self).
    - apply bind_Ok in H as (σ2 & Hdec & [= <- <- <-]).
      by destruct (store_decelerate_frame σ _ _ _ Hdec) as [Hs _].
    - apply bind_Ok in H as ([s σ2] & Hacc & [= <- <- <-]).
      by destruct (store_accelerate_frame σ _ _ _ _ _ Hacc) as [Hs _]. }
  intros i j wi wj pi ti pj tj Hij Hi Hj Hwi%Hs Hwj%Hs.
  by eapply (store_copy_waypoints_distinct _ _ _ _ _ Hcopy i j).
Qed.

Lemma window_points_distinct_witness :
  ∃ final self' σ' wi wj pi ti pj tj,
    Store.get_final_waypoints (node5 0 10 2 true)
      (Store.store_of route5).2 (Store.store_of route5).1 1 7
    = Ok (final, self', σ')
    ∧ final !! 0%nat = Some wi ∧ final !! 5%nat = Some wj
    ∧ σ' !! wi = Some (Store.OWaypoint pi ti)
    ∧ σ' !! wj = Some (Store.OWaypoint pj tj)
    ∧ wi ≠ wj ∧ pi ≠ pj ∧ ti ≠ tj.
Proof.
  eexists _, _, _, _, _, _, _, _, _.
  split; [vm_compute; reflexivity|].
  split; [vm_compute; reflexivity|].
  split; [vm_compute; reflexivity|].
  split; [vm_compute; reflexivity|].
  split; [vm_compute; reflexivity|].
  eapply (window_points_distinct (node5 0 10 2 true)
            (Store.store_of route5).2 (Store.store_of route5).1 1 7)
    with (i := 0%nat) (j := 5%nat);
    [vm_compute; reflexivity|lia|vm_compute; reflexivity..].
Defined.

(** *** A negative stop index *)



